(** * A shallow embedding of [enigma.py]

    The three-rotor Enigma machine of [src/enigma.py]: alphabet utilities,
    [Plugboard], [Rotor], [Reflector] and [EnigmaMachine], followed by the
    properties of the specification.

    Conventions of the embedding.
    - A Python [str] is the list of its code points ([str] abbreviates [list Z]); a
      character is a [str] of length one, as in Python.
    - A Python exception is a value [Raise e] of the error monad [result];
      the state of a machine after an exception is not observed.
    - Mutable objects (the rotors of a machine) are records that the
      operations return in their new state; the machine owns its three
      rotors and they are never shared.
    - [int] is [Z]; [%] is [Z.modulo] (both take the sign of the divisor).
    - A list subscript follows Python: a negative index counts from the
      end, anything outside [-len, len) raises [IndexError]. *)

From Stdlib Require Import ZArith String Ascii List Lia Bool.
From stdpp Require Import gmap strings list fin_maps.

Local Open Scope Z_scope.

(** ** Exceptions *)

Inductive exn := ValueError | KeyError | IndexError | TypeError.

Inductive result (A : Type) : Type :=
| Ok (a : A)
| Raise (e : exn).
Arguments Ok {A} a.
Arguments Raise {A} e.

#[global] Instance result_ret : MRet result := @Ok.
#[global] Instance result_bind : MBind result :=
  λ A B f m, match m with Ok a => f a | Raise e => Raise e end.

#[global] Instance exn_eq_dec : EqDecision exn.
Proof. solve_decision. Defined.

(** ** Python text *)

Abbreviation str := (list Z) (only parsing).

Definition lit (s : string) : str :=
  map (λ a, Z.of_N (N_of_ascii a)) (list_ascii_of_string s).

Definition in_range (lo hi c : Z) : bool := (lo <=? c) && (c <=? hi).

(** [str.isalpha] and [str.upper] on one code point, for Basic Latin and
    Latin-1 Supplement (U+0000 to U+00FF, from the Unicode character
    database) and for the two code points U+0178 and U+039C that [upper]
    reaches from there.  Code points above U+00FF are otherwise outside the
    tables: the statements about texts below are made for texts of code
    points [0 <= c < 256]. *)
Definition isalpha_cp (c : Z) : bool :=
  in_range 65 90 c || in_range 97 122 c
  || (c =? 170) || (c =? 181) || (c =? 186)
  || in_range 192 214 c || in_range 216 246 c || in_range 248 255 c
  || (c =? 376) || (c =? 924).

Definition upper_cp (c : Z) : str :=
  if in_range 97 122 c then [c - 32]
  else if c =? 181 then [924]
  else if c =? 223 then [83; 83]
  else if in_range 224 246 c || in_range 248 254 c then [c - 32]
  else if c =? 255 then [376]
  else [c].

(** [s.upper()] *)
Definition upper (s : str) : str := concat (map upper_cp s).

(** [ord(s)]: a [TypeError] unless [s] has length one. *)
Definition ord (s : str) : result Z :=
  match s with
  | [c] => Ok c
  | _ => Raise TypeError
  end.

(** ** Subscripts *)

Definition norm_index (n : nat) (i : Z) : result nat :=
  if (0 <=? i) && (i <? Z.of_nat n) then Ok (Z.to_nat i)
  else if (- Z.of_nat n <=? i) && (i <? 0) then Ok (Z.to_nat (Z.of_nat n + i))
  else Raise IndexError.

(** [l[i]] *)
Definition getitem {A} (l : list A) (i : Z) : result A :=
  k ← norm_index (length l) i;
  match l !! k with
  | Some x => Ok x
  | None => Raise IndexError
  end.

(** [l[i] = x] *)
Definition setitem {A} (l : list A) (i : Z) (x : A) : result (list A) :=
  k ← norm_index (length l) i;
  Ok (<[k := x]> l).

(** [s[i]] on a [str]: the character as a [str] of length one. *)
Definition str_getitem (s : str) (i : Z) : result str :=
  c ← getitem s i; Ok [c].

(** ** Catalogs and helper utilities *)

Definition ROTOR_WIRINGS : gmap str (str * str) :=
  list_to_map
    [ (lit "I",   (lit "EKMFLGDQVZNTOWYHXUSPAIBRCJ", lit "Q"));
      (lit "II",  (lit "AJDKSIRUXBLHWTMCQGZNPYFVOE", lit "E"));
      (lit "III", (lit "BDFHJLCPRTXVZNYEIWGAKMUSQO", lit "V"));
      (lit "IV",  (lit "ESOVPZJAYQUIRHXLNFTGKDCMWB", lit "J"));
      (lit "V",   (lit "VZBRGITYUPSDNHLXAWMJQOFECK", lit "Z")) ].

Definition REFLECTORS : gmap str str :=
  list_to_map
    [ (lit "B", lit "YRUHQSLDPXNGOKMIEBFZCWVJAT");
      (lit "C", lit "FVPJIAOYEDRZXWGCTKUQSBNMHL") ].

Definition ALPHABET : str := lit "ABCDEFGHIJKLMNOPQRSTUVWXYZ".

(** [d[k]] on a dict: [KeyError] when the key is absent. *)
Definition dict_getitem {V} (d : gmap str V) (k : str) : result V :=
  match d !! k with
  | Some v => Ok v
  | None => Raise KeyError
  end.

Definition char_to_idx (c : str) : result Z :=
  o ← ord (upper c); Ok (o - 65).

Definition idx_to_char (i : Z) : result str :=
  str_getitem ALPHABET (i mod 26).

(** ** Plugboard *)

Module Plugboard.

Record t := Build { wiring : list str }.

(** The body of [for a, b in pairs] in [__init__], with the local
    variables [self.wiring] and [used] passed along. *)
Fixpoint connect (pairs : list (str * str)) (w : list str) (used : gset str)
  : result (list str) :=
  match pairs with
  | [] => Ok w
  | (a, b) :: rest =>
      let a := upper a in
      let b := upper b in
      if bool_decide (a = b) then Raise ValueError
      else if bool_decide (a ∈ used) || bool_decide (b ∈ used)
      then Raise ValueError
      else
        let used := used ∪ {[a; b]} in
        ia ← char_to_idx a;
        w ← setitem w ia b;
        ib ← char_to_idx b;
        w ← setitem w ib a;
        connect rest w used
  end.

Definition __init__ (pairs : option (list (str * str))) : result t :=
  let w := map (λ c, [c]) ALPHABET in
  match pairs with
  | None | Some [] => Ok (Build w)
  | Some ps => w ← connect ps w ∅; Ok (Build w)
  end.

Definition forward (self : t) (c : str) : result str :=
  i ← char_to_idx c; getitem (wiring self) i.

End Plugboard.

(** ** Rotor *)

Module Rotor.

Record t := Build {
  name : str;
  wiring : str;
  reverse : str;
  notch : str;
  position : Z;
  ring : Z
}.

Definition set_position (self : t) (p : Z) : t :=
  Build (name self) (wiring self) (reverse self) (notch self) p (ring self).

(** The loop [for i, c in enumerate(wiring)] of [_invert]. *)
Fixpoint invert_loop (i : Z) (w : str) (inv : list str) : result (list str) :=
  match w with
  | [] => Ok inv
  | c :: w' =>
      a ← str_getitem ALPHABET i;
      k ← char_to_idx [c];
      inv ← setitem inv k a;
      invert_loop (i + 1) w' inv
  end.

Definition _invert (w : str) : result str :=
  inv ← invert_loop 0 w (replicate 26 []);
  Ok (concat inv).

Definition __init__ (name position ring : str) : result t :=
  '(w, n) ← dict_getitem ROTOR_WIRINGS name;
  rev ← _invert w;
  p ← char_to_idx position;
  r ← char_to_idx ring;
  Ok (Build name w rev n p r).

Definition is_at_notch (self : t) : result bool :=
  a ← str_getitem ALPHABET (position self);
  Ok (bool_decide (a = notch self)).

Definition step (self : t) : t :=
  set_position self ((position self + 1) mod 26).

Definition _encode (self : t) (w : str) (signal : Z) : result Z :=
  let offset := position self - ring self in
  let shifted_in := (signal + offset) mod 26 in
  output_char ← str_getitem w shifted_in;
  o ← char_to_idx output_char;
  Ok ((o - offset) mod 26).

Definition forward (self : t) (signal : Z) : result Z :=
  _encode self (wiring self) signal.

Definition backward (self : t) (signal : Z) : result Z :=
  _encode self (reverse self) signal.

End Rotor.

(** ** Reflector *)

Module Reflector.

Record t := Build { wiring : str }.

Definition __init__ (name : str) : result t :=
  w ← dict_getitem REFLECTORS name; Ok (Build w).

Definition reflect (self : t) (signal : Z) : result Z :=
  c ← str_getitem (wiring self) signal; char_to_idx c.

End Reflector.

(** ** The machine *)

Module EnigmaMachine.

Record t := Build {
  rotors : list Rotor.t;
  plugboard : Plugboard.t;
  reflector : Reflector.t
}.

Definition set_rotors (self : t) (rs : list Rotor.t) : t :=
  Build rs (plugboard self) (reflector self).

(** [zip] of three lists stops at the shortest. *)
Fixpoint zip3 {A B C} (l1 : list A) (l2 : list B) (l3 : list C)
  : list (A * B * C) :=
  match l1, l2, l3 with
  | a :: l1, b :: l2, c :: l3 => (a, b, c) :: zip3 l1 l2 l3
  | _, _, _ => []
  end.

(** [[Rotor(n, p, r) for n, p, r in ...]] *)
Fixpoint build_rotors (l : list (str * str * str)) : result (list Rotor.t) :=
  match l with
  | [] => Ok []
  | (n, p, r) :: l' =>
      x ← Rotor.__init__ n p r;
      xs ← build_rotors l';
      Ok (x :: xs)
  end.

(** The arguments are all given: the default values of the source
    (rotors I, II, III at AAA, rings AAA, no plugboard, reflector B) are
    those of [example_machine] below. *)
Definition __init__ (rotor_names positions ring_settings : list str)
    (plugboard : option (list (str * str))) (reflector : str) : result t :=
  if bool_decide (length rotor_names ≠ 3%nat) then Raise ValueError
  else
    rs ← build_rotors (zip3 rotor_names positions ring_settings);
    pb ← Plugboard.__init__ (Some (default [] plugboard));
    rf ← Reflector.__init__ reflector;
    Ok (Build rs pb rf).

Definition _step_rotors (self : t) : result t :=
  match rotors self with
  | [left_; mid; right_] =>
      m ← Rotor.is_at_notch mid;
      if (m : bool) then
        Ok (set_rotors self [Rotor.step left_; Rotor.step mid; Rotor.step right_])
      else
        r ← Rotor.is_at_notch right_;
        if (r : bool) then
          Ok (set_rotors self [left_; Rotor.step mid; Rotor.step right_])
        else
          Ok (set_rotors self [left_; mid; Rotor.step right_])
  | _ => Raise ValueError
  end.

(** [for rotor in rs: signal = f(rotor, signal)] *)
Fixpoint through (f : Rotor.t → Z → result Z) (rs : list Rotor.t) (signal : Z)
  : result Z :=
  match rs with
  | [] => Ok signal
  | r :: rs' => s ← f r signal; through f rs' s
  end.

Definition _encrypt_char (self : t) (c : str) : result (t * str) :=
  self ← _step_rotors self;
  p ← Plugboard.forward (plugboard self) c;
  signal ← char_to_idx p;
  signal ← through Rotor.forward (rev (rotors self)) signal;
  signal ← Reflector.reflect (reflector self) signal;
  signal ← through Rotor.backward (rotors self) signal;
  a ← idx_to_char signal;
  o ← Plugboard.forward (plugboard self) a;
  Ok (self, o).

(** The loop [for char in text.upper()] of [encrypt]; [out] is the list
    [result] of the source. *)
Fixpoint encrypt_loop (self : t) (chars : str) (out : list str)
  : result (t * list str) :=
  match chars with
  | [] => Ok (self, out)
  | char :: rest =>
      if isalpha_cp char then
        '(self, o) ← _encrypt_char self [char];
        encrypt_loop self rest (out ++ [o])
      else
        encrypt_loop self rest (out ++ [[char]])
  end.

Definition encrypt (self : t) (text : str) : result (t * str) :=
  '(self, out) ← encrypt_loop self (upper text) [];
  Ok (self, concat out).

(** The loop [for rotor, pos in zip(self.rotors, positions)] of [reset]. *)
Fixpoint reset_loop (rs : list Rotor.t) (positions : list str)
  : result (list Rotor.t) :=
  match rs, positions with
  | r :: rs', pos :: ps' =>
      p ← char_to_idx pos;
      rs'' ← reset_loop rs' ps';
      Ok (Rotor.set_position r p :: rs'')
  | _, _ => Ok rs
  end.

Definition reset (self : t) (positions : list str) : result t :=
  rs ← reset_loop (rotors self) positions;
  Ok (set_rotors self rs).

End EnigmaMachine.

(** * Definitions used by the statements *)

Definition range26 : list Z := map Z.of_nat (seq 0 26).

(** The letter of index [i], as a [str] of length one. *)
Definition letter (i : Z) : str := [65 + i].

(** A [str] that is one ASCII letter, of either case. *)
Definition is_letter (s : str) : bool :=
  match s with
  | [c] => in_range 65 90 c || in_range 97 122 c
  | _ => false
  end.

(** The index of the letter [s], when [is_letter s]. *)
Definition letter_idx (s : str) : Z :=
  match s with
  | [c] => if in_range 97 122 c then c - 97 else c - 65
  | _ => 0
  end.

(** Reading a substitution table [w] at [k]: the index of the letter found
    there, [char_to_idx(w[k])]. *)
Definition tbl (w : str) (k : Z) : result Z :=
  c ← str_getitem w k; char_to_idx c.

(** [r] undoes [w] on every index: [r[w[k]]] is the letter of [k]. *)
Definition check_inverse (w r : str) : bool :=
  forallb (λ k, match tbl w k with
                | Ok j => in_range 0 25 j
                          && match tbl r j with Ok k' => k' =? k | _ => false end
                | Raise _ => false
                end) range26.

Definition check_tables (w r : str) : bool :=
  check_inverse w r && check_inverse r w.

(** [w] is an involution of the indices without fixed point. *)
Definition check_reflector (w : str) : bool :=
  forallb (λ i, match tbl w i with
                | Ok j => in_range 0 25 j && negb (j =? i)
                          && match tbl w j with Ok i' => i' =? i | _ => false end
                | Raise _ => false
                end) range26.

(** The first 26 characters of [w] are capital letters A to Z. *)
Definition check_capitals (w : str) : bool :=
  forallb (λ k, match str_getitem w k with
                | Ok [c] => in_range 65 90 c
                | _ => false
                end) range26.

(** A rotor whose two tables undo each other. *)
Definition good_rotor (r : Rotor.t) : Prop :=
  check_tables (Rotor.wiring r) (Rotor.reverse r) = true.

(** The letters of a plugboard pair list, uppercased, in order. *)
Fixpoint plug_letters (pairs : list (str * str)) : list str :=
  match pairs with
  | [] => []
  | (a, b) :: rest => upper a :: upper b :: plug_letters rest
  end.

(** Both ends of every pair are letters. *)
Definition letter_pairs (pairs : list (str * str)) : Prop :=
  Forall (λ p, is_letter p.1 = true ∧ is_letter p.2 = true) pairs.

(** Some pair connects a letter to itself. *)
Definition self_paired (pairs : list (str * str)) : Prop :=
  Exists (λ p, upper p.1 = upper p.2) pairs.

(** Two pairs have a letter in common. *)
Definition shares (p q : str * str) : Prop :=
  upper p.1 = upper q.1 ∨ upper p.1 = upper q.2
  ∨ upper p.2 = upper q.1 ∨ upper p.2 = upper q.2.

(** A letter is used in two different pairs. *)
Fixpoint reused (pairs : list (str * str)) : Prop :=
  match pairs with
  | [] => False
  | p :: rest => Exists (shares p) rest ∨ reused rest
  end.

(** A valid pair list: pairs of distinct letters, no letter in two pairs. *)
Definition valid_pairs (pairs : list (str * str)) : Prop :=
  letter_pairs pairs ∧ ¬ self_paired pairs ∧ ¬ reused pairs.

(** The invariant of the loop of [Plugboard.__init__]: the table swaps
    letters in pairs and leaves the letters not yet used in place. *)
Definition plug_inv (w : list str) (used : gset str) : Prop :=
  length w = 26%nat
  ∧ (∀ i, 0 <= i < 26 →
       ∃ j, 0 <= j < 26 ∧ w !! Z.to_nat i = Some (letter j)
            ∧ w !! Z.to_nat j = Some (letter i))
  ∧ (∀ i, 0 <= i < 26 → letter i ∉ used → w !! Z.to_nat i = Some (letter i)).

(** A plugboard that swaps letters in pairs. *)
Definition good_plugboard (pb : Plugboard.t) : Prop :=
  ∀ i, 0 <= i < 26 →
    ∃ j, 0 <= j < 26 ∧ Plugboard.forward pb (letter i) = Ok (letter j)
         ∧ Plugboard.forward pb (letter j) = Ok (letter i).

(** The rotor sits at its notch: the letter in its window is its notch
    letter. *)
Definition at_notch (r : Rotor.t) : bool :=
  bool_decide (letter (Rotor.position r) = Rotor.notch r).

(** The rotor one position further, modulo 26. *)
Definition advance (r : Rotor.t) : Rotor.t :=
  Rotor.set_position r ((Rotor.position r + 1) mod 26).

(** The stepping rule in the words of the specification: both notch
    tests are taken on the positions before any rotor moves. *)
Definition step_spec (l m r : Rotor.t) : list Rotor.t :=
  let mid_at_notch := at_notch m in
  let right_at_notch := at_notch r in
  if mid_at_notch then [advance l; advance m; advance r]
  else if right_at_notch then [l; advance m; advance r]
  else [l; m; advance r].

Definition pos_ok (r : Rotor.t) : Prop := 0 <= Rotor.position r < 26.

Definition good_reflector (rf : Reflector.t) : Prop :=
  check_reflector (Reflector.wiring rf) = true.

(** A machine as a successful construction from letters leaves it, and as
    stepping keeps it. *)
Definition wf (m : EnigmaMachine.t) : Prop :=
  length (EnigmaMachine.rotors m) = 3%nat
  ∧ Forall good_rotor (EnigmaMachine.rotors m)
  ∧ Forall pos_ok (EnigmaMachine.rotors m)
  ∧ good_plugboard (EnigmaMachine.plugboard m)
  ∧ good_reflector (EnigmaMachine.reflector m).

(** The plugboard table holds strings of one character: so does every
    table that [Plugboard.__init__] builds, whatever the pairs, and no
    other code writes to it. *)
Definition plug_chars (m : EnigmaMachine.t) : Prop :=
  Forall (λ s : str, length s = 1%nat)
    (Plugboard.wiring (EnigmaMachine.plugboard m)).

(** Two machines with the same key: they differ at most by the positions
    of their rotors. *)
Definition same_key (m m' : EnigmaMachine.t) : Prop :=
  EnigmaMachine.plugboard m' = EnigmaMachine.plugboard m
  ∧ EnigmaMachine.reflector m' = EnigmaMachine.reflector m
  ∧ Forall2 (λ r r', ∃ p, r' = Rotor.set_position r p)
      (EnigmaMachine.rotors m) (EnigmaMachine.rotors m').

(** The letters in the three windows, left to right. *)
Definition windows (m : EnigmaMachine.t) : str :=
  concat (map (λ r, letter (Rotor.position r)) (EnigmaMachine.rotors m)).

(** The windows after each of a sequence of calls of [encrypt]. *)
Fixpoint press_trace (m : EnigmaMachine.t) (keys : list str)
  : result (list str) :=
  match keys with
  | [] => Ok []
  | k :: keys' =>
      '(m', _) ← EnigmaMachine.encrypt m k;
      ws ← press_trace m' keys';
      Ok (windows m' :: ws)
  end.

(** Steps 3 to 5 of [_encrypt_char]: the rotors right to left, the
    reflector, the rotors left to right. *)
Definition signal_path (m : EnigmaMachine.t) (signal : Z) : result Z :=
  signal ← EnigmaMachine.through Rotor.forward (rev (EnigmaMachine.rotors m)) signal;
  signal ← Reflector.reflect (EnigmaMachine.reflector m) signal;
  EnigmaMachine.through Rotor.backward (EnigmaMachine.rotors m) signal.

(** A text within the tables of [isalpha_cp] and [upper_cp]. *)
Definition latin1 (text : str) : Prop := Forall (λ c, 0 <= c < 256) text.

(** Every alphabetic character of the uppercased text is one of A to Z. *)
Definition letters_AZ (text : str) : Prop :=
  Forall (λ c, isalpha_cp c = true → in_range 65 90 c = true) (upper text).

(** The machine of the first example of the repository: rotors I, II, III
    at AAA, rings AAA, no plugboard pair, reflector B. *)
Definition example_machine : result EnigmaMachine.t :=
  EnigmaMachine.__init__ [lit "I"; lit "II"; lit "III"]
    [lit "A"; lit "A"; lit "A"] [lit "A"; lit "A"; lit "A"] None (lit "B").

(** The rotor and reflector identities of the catalogs. *)
Definition rotor_in_catalog (name : str) : Prop := name ∈ dom ROTOR_WIRINGS.
Definition reflector_in_catalog (name : str) : Prop := name ∈ dom REFLECTORS.

(** The letters given for the windows or the rings: at least three, all
    of them letters. *)
Definition three_letters (l : list str) : Prop :=
  (3 <= length l)%nat ∧ Forall (λ s, is_letter s = true) l.

(** A valid configuration: three rotors of the catalog, letters for the
    windows and the rings, a valid plugboard pair list (or none), a
    reflector of the catalog. *)
Definition valid_config (rotor_names positions ring_settings : list str)
    (plugboard : option (list (str * str))) (reflector : str) : Prop :=
  length rotor_names = 3%nat
  ∧ Forall rotor_in_catalog rotor_names
  ∧ three_letters positions ∧ three_letters ring_settings
  ∧ valid_pairs (default [] plugboard)
  ∧ reflector_in_catalog reflector.


(** The exceptions of a rejected configuration: the [ValueError] raised
    by the constructors and the [KeyError] of a catalog lookup. *)
Definition is_config_error (e : exn) : bool :=
  match e with
  | ValueError | KeyError => true
  | IndexError | TypeError => false
  end.

(** The windows after each of [n] calls of the stepping mechanism. *)
Fixpoint step_trace (m : EnigmaMachine.t) (n : nat) : result (list str) :=
  match n with
  | O => Ok []
  | S n' =>
      m' ← EnigmaMachine._step_rotors m;
      ws ← step_trace m' n';
      Ok (windows m' :: ws)
  end.

(** The machine of the double-step example: rotors I, II, III (notches
    Q, E, V) at ADU, rings AAA, no plugboard pair, reflector B. *)
Definition double_step_machine : result EnigmaMachine.t :=
  EnigmaMachine.__init__ [lit "I"; lit "II"; lit "III"]
    [lit "A"; lit "D"; lit "U"] [lit "A"; lit "A"; lit "A"] None (lit "B").

(** A computation that raises no configuration error. *)
Definition runtime_only {A} (r : result A) : Prop :=
  ∀ e, r = Raise e → is_config_error e = false.

(** * Definitions used by the further properties *)

(** How a character of the uppercased text shows in the ciphertext: a
    letter as another capital letter, any other character as itself. *)
Definition enciphered (c d : Z) : Prop :=
  if isalpha_cp c then in_range 65 90 d = true ∧ d ≠ c else d = c.

(** The number of alphabetic characters of a text. *)
Definition count_letters (cs : str) : nat :=
  length (filter (λ c, isalpha_cp c = true) cs).

(** * Properties *)

(** ** Finite checks over the alphabet indices *)

Lemma range26_complete (i : Z) : 0 <= i < 26 → In i range26.
Proof.
  intros Hi. unfold range26.
  replace i with (Z.of_nat (Z.to_nat i)) by lia.
  apply in_map, in_seq. lia.
Qed.

Lemma forallb_range26 (f : Z → bool) :
  forallb f range26 = true → ∀ i, 0 <= i < 26 → f i = true.
Proof.
  intros Hf i Hi. rewrite forallb_forall in Hf.
  apply Hf, range26_complete, Hi.
Qed.

Lemma in_range_spec lo hi c : in_range lo hi c = true ↔ lo <= c <= hi.
Proof. unfold in_range. rewrite andb_true_iff, !Z.leb_le. tauto. Qed.

(** ** Subscripts in range *)

Lemma norm_index_nonneg (n : nat) (i : Z) :
  0 <= i < Z.of_nat n → norm_index n i = Ok (Z.to_nat i).
Proof.
  intros Hi. unfold norm_index.
  destruct (0 <=? i) eqn:E1; [|lia].
  destruct (i <? Z.of_nat n) eqn:E2; [reflexivity|lia].
Qed.

Lemma getitem_nonneg {A} (l : list A) (i : Z) (x : A) :
  0 <= i → l !! Z.to_nat i = Some x → getitem l i = Ok x.
Proof.
  intros Hi Hl. unfold getitem.
  rewrite norm_index_nonneg.
  - simpl. rewrite Hl. reflexivity.
  - apply lookup_lt_Some in Hl. lia.
Qed.

Lemma setitem_nonneg {A} (l : list A) (i : Z) (x : A) :
  0 <= i < Z.of_nat (length l) → setitem l i x = Ok (<[Z.to_nat i := x]> l).
Proof. intros Hi. unfold setitem. rewrite norm_index_nonneg by done. done. Qed.

(** ** Letters *)

Lemma is_letter_upper (s : str) :
  is_letter s = true →
  0 <= letter_idx s < 26 ∧ upper s = letter (letter_idx s).
Proof.
  destruct s as [|c [|? ?]]; simpl; try discriminate.
  intros H. unfold upper, upper_cp, letter. simpl.
  apply orb_true_iff in H as [H|H]; apply in_range_spec in H.
  - destruct (in_range 97 122 c) eqn:E; [apply in_range_spec in E; lia|].
    destruct (c =? 181) eqn:E1; [lia|].
    destruct (c =? 223) eqn:E2; [lia|].
    destruct (in_range 224 246 c) eqn:E3; [apply in_range_spec in E3; lia|].
    destruct (in_range 248 254 c) eqn:E4; [apply in_range_spec in E4; lia|].
    destruct (c =? 255) eqn:E5; [lia|].
    simpl. split; [lia|]. f_equal. lia.
  - destruct (in_range 97 122 c) eqn:E.
    + split; [lia|]. simpl. f_equal. lia.
    + apply not_true_iff_false in E. rewrite in_range_spec in E. lia.
Qed.

Lemma upper_letter (i : Z) : 0 <= i < 26 → upper (letter i) = letter i.
Proof.
  intros Hi. pose proof (is_letter_upper (letter i)) as H.
  unfold letter in *. simpl in H.
  destruct (in_range 65 90 (65 + i)) eqn:E.
  - destruct (H eq_refl) as [_ ->].
    destruct (in_range 97 122 (65 + i)) eqn:E'; [apply in_range_spec in E'; lia|].
    do 2 f_equal. lia.
  - apply not_true_iff_false in E. rewrite in_range_spec in E. lia.
Qed.

Lemma char_to_idx_letter (i : Z) : 0 <= i < 26 → char_to_idx (letter i) = Ok i.
Proof.
  intros Hi. unfold char_to_idx. rewrite upper_letter by done.
  simpl. f_equal. lia.
Qed.

Lemma char_to_idx_is_letter (s : str) :
  is_letter s = true → char_to_idx s = Ok (letter_idx s).
Proof.
  intros H. apply is_letter_upper in H as [Hr Hu].
  unfold char_to_idx. rewrite Hu. simpl. f_equal. lia.
Qed.

Lemma ALPHABET_getitem (i : Z) :
  0 <= i < 26 → str_getitem ALPHABET i = Ok (letter i).
Proof.
  intros Hi.
  assert (forallb (λ k, match str_getitem ALPHABET k with
                        | Ok [c] => c =? 65 + k
                        | _ => false
                        end) range26 = true) as H by (vm_compute; reflexivity).
  pose proof (forallb_range26 _ H i Hi) as Hk. simpl in Hk.
  destruct (str_getitem ALPHABET i) as [[|c [|? ?]]|]; try discriminate.
  apply Z.eqb_eq in Hk. subst c. reflexivity.
Qed.

Lemma idx_to_char_letter (i : Z) : 0 <= i < 26 → idx_to_char i = Ok (letter i).
Proof.
  intros Hi. unfold idx_to_char. rewrite Z.mod_small by lia.
  apply ALPHABET_getitem, Hi.
Qed.

(** ** The catalogs *)

Lemma check_inverse_spec (w r : str) (k : Z) :
  check_inverse w r = true → 0 <= k < 26 →
  ∃ j, 0 <= j < 26 ∧ tbl w k = Ok j ∧ tbl r j = Ok k.
Proof.
  intros H Hk. pose proof (forallb_range26 _ H k Hk) as Hc. simpl in Hc.
  destruct (tbl w k) as [j|] eqn:Ej; [|discriminate].
  apply andb_true_iff in Hc as [Hj Hr]. apply in_range_spec in Hj.
  destruct (tbl r j) as [k'|] eqn:Ek; [|discriminate].
  apply Z.eqb_eq in Hr. subst. exists j. repeat split; (lia || done).
Qed.

Lemma check_reflector_spec (w : str) (i : Z) :
  check_reflector w = true → 0 <= i < 26 →
  ∃ j, 0 <= j < 26 ∧ j ≠ i ∧ tbl w i = Ok j ∧ tbl w j = Ok i.
Proof.
  intros H Hi. pose proof (forallb_range26 _ H i Hi) as Hc. simpl in Hc.
  destruct (tbl w i) as [j|] eqn:Ej; [|discriminate].
  apply andb_true_iff in Hc as [Hj Hr]. apply andb_true_iff in Hj as [Hj Hne].
  apply in_range_spec in Hj. apply negb_true_iff, Z.eqb_neq in Hne.
  destruct (tbl w j) as [i'|] eqn:Ei; [|discriminate].
  apply Z.eqb_eq in Hr. subst. exists j. repeat split; (lia || done).
Qed.

Lemma check_capitals_spec (w : str) (k : Z) :
  check_capitals w = true → 0 <= k < 26 →
  ∃ j, 0 <= j < 26 ∧ str_getitem w k = Ok (letter j).
Proof.
  intros H Hk. pose proof (forallb_range26 _ H k Hk) as Hc. simpl in Hc.
  destruct (str_getitem w k) as [[|c [|? ?]]|]; try discriminate.
  apply in_range_spec in Hc. exists (c - 65). split; [lia|].
  unfold letter. do 2 f_equal. lia.
Qed.

Lemma ROTOR_WIRINGS_catalog (name w n : str) :
  ROTOR_WIRINGS !! name = Some (w, n) →
  ∃ rev j, Rotor._invert w = Ok rev ∧ check_tables w rev = true
           ∧ check_capitals rev = true
           ∧ 0 <= j < 26 ∧ n = letter j.
Proof.
  intros H. apply elem_of_list_to_map_2 in H.
  repeat (apply elem_of_cons in H as [H|H];
          [injection H as -> -> ->;
           match goal with
           | |- context [Rotor._invert ?w] =>
               let r := eval vm_compute in (Rotor._invert w) in
               match r with
               | Ok ?rev => exists rev
               end
           end;
           match goal with
           | |- context [lit ?q = letter _] =>
               let c := eval vm_compute in (lit q) in
               match c with
               | [?x] => exists (x - 65)
               end
           end;
           split; [vm_compute; reflexivity|];
           split; [vm_compute; reflexivity|];
           split; [vm_compute; reflexivity|];
           split; [lia|vm_compute; reflexivity] |]).
  apply elem_of_nil in H. destruct H.
Qed.

Lemma REFLECTORS_catalog (name w : str) :
  REFLECTORS !! name = Some w → check_reflector w = true.
Proof.
  intros H. apply elem_of_list_to_map_2 in H.
  repeat (apply elem_of_cons in H as [H|H];
          [injection H as -> ->; vm_compute; reflexivity|]).
  apply elem_of_nil in H. destruct H.
Qed.

(** ** Rotor substitution *)

Section encode.
Variable self : Rotor.t.

Let offset := Rotor.position self - Rotor.ring self.

Lemma encode_tbl (w : str) (s : Z) :
  Rotor._encode self w s
  = o ← tbl w ((s + offset) mod 26); Ok ((o - offset) mod 26).
Proof.
  unfold Rotor._encode, tbl, offset.
  destruct (str_getitem w _); reflexivity.
Qed.

Lemma shift_out_in (j : Z) :
  0 <= j < 26 → ((j - offset) mod 26 + offset) mod 26 = j.
Proof.
  intros Hj. rewrite Zplus_mod_idemp_l.
  replace (j - offset + offset) with j by ring.
  apply Z.mod_small, Hj.
Qed.

Lemma shift_in_out (s : Z) :
  0 <= s < 26 → ((s + offset) mod 26 - offset) mod 26 = s.
Proof.
  intros Hs. rewrite Zminus_mod_idemp_l.
  replace (s + offset - offset) with s by ring.
  apply Z.mod_small, Hs.
Qed.

(** A table and the table that undoes it give substitutions that undo
    each other, at the rotor's current position and ring. *)
Lemma encode_inverse (w r : str) (s : Z) :
  check_inverse w r = true → 0 <= s < 26 →
  ∃ t, 0 <= t < 26
       ∧ Rotor._encode self w s = Ok t
       ∧ Rotor._encode self r t = Ok s.
Proof.
  intros Hwr Hs.
  assert (0 <= (s + offset) mod 26 < 26) as Hk by (apply Z.mod_pos_bound; lia).
  destruct (check_inverse_spec w r _ Hwr Hk) as (j & Hj & Hw & Hr).
  exists ((j - offset) mod 26).
  split; [apply Z.mod_pos_bound; lia|].
  rewrite !encode_tbl. rewrite Hw. simpl.
  split; [reflexivity|].
  rewrite shift_out_in by done. rewrite Hr. simpl.
  f_equal. apply shift_in_out, Hs.
Qed.
End encode.

Lemma good_rotor_forward (r : Rotor.t) (s : Z) :
  good_rotor r → 0 <= s < 26 →
  ∃ t, 0 <= t < 26 ∧ Rotor.forward r s = Ok t ∧ Rotor.backward r t = Ok s.
Proof.
  intros Hg Hs. apply andb_true_iff in Hg as [Hg _].
  apply encode_inverse; done.
Qed.

Lemma good_rotor_backward (r : Rotor.t) (s : Z) :
  good_rotor r → 0 <= s < 26 →
  ∃ t, 0 <= t < 26 ∧ Rotor.backward r s = Ok t ∧ Rotor.forward r t = Ok s.
Proof.
  intros Hg Hs. apply andb_true_iff in Hg as [_ Hg].
  apply encode_inverse; done.
Qed.

(** ** C5 and C7: the tables of the catalogs *)

(** C5. For the reflectors B and C of the catalog and every index [i] of
    [0..25], [reflect(i)] is an index different from [i], and
    [reflect(reflect(i))] is [i]. *)
Theorem reflector_involution_no_fixed_point (name : str) (i : Z) :
  name = lit "B" ∨ name = lit "C" → 0 <= i < 26 →
  ∃ self j,
    Reflector.__init__ name = Ok self
    ∧ Reflector.reflect self i = Ok j
    ∧ 0 <= j < 26 ∧ j ≠ i
    ∧ Reflector.reflect self j = Ok i.
Proof.
  intros Hn Hi.
  assert (∃ w, REFLECTORS !! name = Some w) as [w Hw]
    by (destruct Hn as [-> | ->]; eexists; vm_compute; reflexivity).
  exists (Reflector.Build w).
  pose proof (REFLECTORS_catalog _ _ Hw) as Hc.
  destruct (check_reflector_spec w i Hc Hi) as (j & Hj & Hne & H1 & H2).
  exists j. unfold Reflector.__init__, dict_getitem. rewrite Hw.
  repeat split; (lia || done).
Qed.

Lemma reflector_involution_no_fixed_point_witness :
  ∃ self j,
    Reflector.__init__ (lit "B") = Ok self
    ∧ Reflector.reflect self 0 = Ok j
    ∧ 0 <= j < 26 ∧ j ≠ 0
    ∧ Reflector.reflect self j = Ok 0.
Proof.
  apply (reflector_involution_no_fixed_point (lit "B") 0); [left; reflexivity | lia].
Defined.

(** C7. For every rotor of the catalog, at every position and ring
    setting, and every index [i] of [0..25]: [backward(forward(i))] is [i],
    and the table computed by [_invert] holds the letter of [i] at the
    index of [wiring[i]]. *)
Theorem rotor_backward_forward (name w n rev : str) (p r i : Z) :
  ROTOR_WIRINGS !! name = Some (w, n) →
  Rotor._invert w = Ok rev →
  0 <= i < 26 →
  let self := Rotor.Build name w rev n p r in
  (∃ j, Rotor.forward self i = Ok j ∧ Rotor.backward self j = Ok i)
  ∧ (∃ c k, str_getitem (Rotor.wiring self) i = Ok c
            ∧ char_to_idx c = Ok k
            ∧ str_getitem (Rotor.reverse self) k = Ok (letter i)).
Proof.
  intros Hc Hi Hr self.
  pose proof (ROTOR_WIRINGS_catalog _ _ _ Hc) as (rev' & _ & Hi' & Hck & Hcap & _).
  rewrite Hi in Hi'. injection Hi' as <-.
  split.
  - destruct (good_rotor_forward self i Hck Hr) as (j & _ & Hf & Hb). eauto.
  - apply andb_true_iff in Hck as [Hck _].
    destruct (check_inverse_spec _ _ _ Hck Hr) as (k & Hk & Hw & Hrev).
    destruct (check_capitals_spec _ _ Hcap Hk) as (i' & Hi' & Hl).
    unfold tbl in Hw, Hrev. simpl.
    destruct (str_getitem w i) as [c|]; [|discriminate]. simpl in Hw.
    exists c, k. split; [done|]. split; [done|].
    rewrite Hl in Hrev |- *. simpl in Hrev.
    rewrite char_to_idx_letter in Hrev by done. congruence.
Qed.

Lemma rotor_backward_forward_witness :
  let self := Rotor.Build (lit "I") (lit "EKMFLGDQVZNTOWYHXUSPAIBRCJ")
                (lit "UWYGADFPVZBECKMTHXSLRINQOJ") (lit "Q") 3 7 in
  (∃ j, Rotor.forward self 5 = Ok j ∧ Rotor.backward self j = Ok 5)
  ∧ (∃ c k, str_getitem (Rotor.wiring self) 5 = Ok c
            ∧ char_to_idx c = Ok k
            ∧ str_getitem (Rotor.reverse self) k = Ok (letter 5)).
Proof.
  apply (rotor_backward_forward (lit "I") _ (lit "Q") _ 3 7 5);
    [vm_compute; reflexivity | vm_compute; reflexivity | lia].
Defined.

(** ** Plugboard *)

Lemma plug_inv_init : plug_inv (map (λ c, [c]) ALPHABET) ∅.
Proof.
  assert (∀ i, 0 <= i < 26 →
            map (λ c : Z, [c]) ALPHABET !! Z.to_nat i = Some (letter i)) as H.
  { intros i Hi.
    assert (forallb (λ k, match map (λ c : Z, [c]) ALPHABET !! Z.to_nat k with
                          | Some [c] => c =? 65 + k
                          | _ => false
                          end) range26 = true) as Hc by (vm_compute; reflexivity).
    pose proof (forallb_range26 _ Hc i Hi) as Hk. cbv beta in Hk.
    destruct (map _ ALPHABET !! Z.to_nat i) as [[|c [|? ?]]|]; try discriminate.
    apply Z.eqb_eq in Hk. subst c. reflexivity. }
  split; [reflexivity|]. split.
  - intros i Hi. exists i. auto.
  - intros i Hi _. auto.
Qed.

Lemma plug_inv_connect (w : list str) (used : gset str) (a b : Z) :
  plug_inv w used → 0 <= a < 26 → 0 <= b < 26 → a ≠ b →
  letter a ∉ used → letter b ∉ used →
  plug_inv (<[Z.to_nat b := letter a]> (<[Z.to_nat a := letter b]> w))
           (used ∪ {[letter a; letter b]}).
Proof.
  intros (Hlen & Hinv & Hid) Ha Hb Hab Hua Hub.
  assert (Z.to_nat a ≠ Z.to_nat b) as Hn by lia.
  assert (w !! Z.to_nat a = Some (letter a)) as Hwa by auto.
  assert (w !! Z.to_nat b = Some (letter b)) as Hwb by auto.
  split; [rewrite !length_insert; done|]. split.
  - intros i Hi.
    destruct (decide (i = a)) as [->|Hia]; [|destruct (decide (i = b)) as [->|Hib]].
    + exists b. split; [done|]. split.
      * rewrite list_lookup_insert_ne by done.
        apply list_lookup_insert_eq. lia.
      * apply list_lookup_insert_eq. rewrite length_insert. lia.
    + exists a. split; [done|]. split.
      * apply list_lookup_insert_eq. rewrite length_insert. lia.
      * rewrite list_lookup_insert_ne by done.
        apply list_lookup_insert_eq. lia.
    + destruct (Hinv i Hi) as (j & Hj & Hij & Hji).
      assert (j ≠ a) as Hja.
      { intros ->. rewrite Hwa in Hji. injection Hji as Hji. lia. }
      assert (j ≠ b) as Hjb.
      { intros ->. rewrite Hwb in Hji. injection Hji as Hji. lia. }
      exists j. split; [done|].
      rewrite !list_lookup_insert_ne by lia. done.
  - intros i Hi Hu.
    assert (i ≠ a) by (intros ->; set_solver).
    assert (i ≠ b) by (intros ->; set_solver).
    rewrite !list_lookup_insert_ne by lia.
    apply Hid; [done|set_solver].
Qed.

(** One round of the loop on a pair of fresh, distinct letters. *)
Lemma connect_step (a b : str) (rest : list (str * str))
    (w : list str) (used : gset str) :
  is_letter a = true → is_letter b = true → length w = 26%nat →
  upper a ≠ upper b → upper a ∉ used → upper b ∉ used →
  Plugboard.connect ((a, b) :: rest) w used
  = Plugboard.connect rest
      (<[Z.to_nat (letter_idx b) := upper a]>
         (<[Z.to_nat (letter_idx a) := upper b]> w))
      (used ∪ {[upper a; upper b]}).
Proof.
  intros Ha Hb Hlen Hab Hua Hub. simpl.
  rewrite bool_decide_eq_false_2 by done.
  rewrite (bool_decide_eq_false_2 (upper a ∈ used)) by done.
  rewrite (bool_decide_eq_false_2 (upper b ∈ used)) by done. simpl.
  destruct (is_letter_upper a Ha) as [Hra Ea].
  destruct (is_letter_upper b Hb) as [Hrb Eb].
  rewrite Ea, Eb.
  rewrite !char_to_idx_letter by done. simpl.
  rewrite setitem_nonneg by lia. simpl.
  rewrite setitem_nonneg by (rewrite length_insert; lia). simpl.
  reflexivity.
Qed.

Lemma connect_ok (pairs : list (str * str)) :
  ∀ (w : list str) (used : gset str),
    letter_pairs pairs → NoDup (plug_letters pairs) →
    (∀ x, x ∈ plug_letters pairs → x ∉ used) →
    plug_inv w used →
    ∃ w', Plugboard.connect pairs w used = Ok w'
          ∧ plug_inv w' (used ∪ list_to_set (plug_letters pairs)).
Proof.
  induction pairs as [|[a b] rest IH]; intros w used Hl Hnd Hfresh Hinv.
  - exists w. split; [reflexivity|]. simpl.
    replace (used ∪ ∅) with used by set_solver. done.
  - inversion Hl as [|? ? [Ha Hb] Hl']; subst. simpl in Ha, Hb.
    simpl in Hnd. apply NoDup_cons in Hnd as [Hna Hnd].
    apply NoDup_cons in Hnd as [Hnb Hnd].
    assert (upper a ≠ upper b) as Hab by (intros E; apply Hna; rewrite E; left).
    assert (upper a ∉ used) as Hua by (apply Hfresh; simpl; left).
    assert (upper b ∉ used) as Hub by (apply Hfresh; simpl; right; left).
    rewrite connect_step by (done || apply Hinv).
    destruct (is_letter_upper a Ha) as [Hra Ea].
    destruct (is_letter_upper b Hb) as [Hrb Eb].
    destruct (IH (<[Z.to_nat (letter_idx b) := upper a]>
                    (<[Z.to_nat (letter_idx a) := upper b]> w))
                 (used ∪ {[upper a; upper b]})) as (w' & Hw' & Hinv'); try done.
    + intros x Hx. apply not_elem_of_union. split.
      * apply Hfresh. simpl. right. right. done.
      * intros Hx'. apply elem_of_union in Hx' as [Hx'|Hx'];
          apply elem_of_singleton in Hx'; subst x.
        -- apply Hna. right. done.
        -- apply Hnb. done.
    + rewrite Ea, Eb in *. apply plug_inv_connect; try done.
      intros E. apply Hab. rewrite E. done.
    + exists w'. split; [done|]. simpl.
      replace (used ∪ ({[upper a]} ∪ ({[upper b]} ∪ list_to_set (plug_letters rest))))
        with (used ∪ {[upper a; upper b]} ∪ list_to_set (plug_letters rest))
        by set_solver.
      done.
Qed.

Lemma connect_raise (pairs : list (str * str)) :
  ∀ (w : list str) (used : gset str),
    letter_pairs pairs → length w = 26%nat →
    ¬ (NoDup (plug_letters pairs) ∧ ∀ x, x ∈ plug_letters pairs → x ∉ used) →
    Plugboard.connect pairs w used = Raise ValueError.
Proof.
  induction pairs as [|[a b] rest IH]; intros w used Hl Hlen Hbad.
  - exfalso. apply Hbad. split; [constructor|].
    intros x Hx. apply elem_of_nil in Hx. destruct Hx.
  - inversion Hl as [|? ? [Ha Hb] Hl']; subst. simpl in Ha, Hb.
    destruct (decide (upper a = upper b)) as [Hab|Hab].
    { simpl. rewrite bool_decide_eq_true_2 by done. reflexivity. }
    destruct (decide (upper a ∈ used)) as [Hua|Hua].
    { simpl. rewrite bool_decide_eq_false_2 by done.
      rewrite (bool_decide_eq_true_2 (upper a ∈ used)) by done. reflexivity. }
    destruct (decide (upper b ∈ used)) as [Hub|Hub].
    { simpl. rewrite bool_decide_eq_false_2 by done.
      rewrite (bool_decide_eq_true_2 (upper b ∈ used)) by done.
      rewrite orb_true_r. reflexivity. }
    rewrite connect_step by done.
    apply IH; [done|rewrite !length_insert; done|].
    intros [Hnd Hfresh]. apply Hbad. simpl. split.
    + apply NoDup_cons. split.
      * rewrite elem_of_cons. intros [E|E]; [done|].
        apply (Hfresh _ E). set_solver.
      * apply NoDup_cons. split; [|done].
        intros E. apply (Hfresh _ E). set_solver.
    + intros x. rewrite !elem_of_cons. intros [->|[->|Hx]]; [done|done|].
      intros Hu. apply (Hfresh x Hx). set_solver.
Qed.

Lemma plug_inv_good (w : list str) (used : gset str) :
  plug_inv w used → good_plugboard (Plugboard.Build w).
Proof.
  intros (Hlen & Hinv & _) i Hi.
  destruct (Hinv i Hi) as (j & Hj & Hij & Hji).
  exists j. split; [done|]. unfold Plugboard.forward. simpl.
  rewrite !char_to_idx_letter by done. simpl.
  split; apply getitem_nonneg; (lia || done).
Qed.

Lemma NoDup_plug_letters (pairs : list (str * str)) :
  NoDup (plug_letters pairs) ↔ ¬ self_paired pairs ∧ ¬ reused pairs.
Proof.
  assert (∀ p rest, Exists (shares p) rest
                    ↔ (upper p.1 ∈ plug_letters rest ∨ upper p.2 ∈ plug_letters rest))
    as Hsh.
  { intros p rest. induction rest as [|[c d] rest IH]; simpl.
    - rewrite Exists_nil. split; [tauto|].
      intros [H|H]; apply elem_of_nil in H; done.
    - rewrite Exists_cons, IH, !elem_of_cons. unfold shares. simpl. tauto. }
  induction pairs as [|[a b] rest IH]; simpl.
  - unfold self_paired. rewrite Exists_nil. split; [tauto|]. intros _. constructor.
  - unfold self_paired in *. rewrite !NoDup_cons, IH, Exists_cons, Hsh, elem_of_cons.
    simpl. tauto.
Qed.

Lemma Plugboard_init_connect (pairs : list (str * str)) :
  Plugboard.__init__ (Some pairs)
  = w ← Plugboard.connect pairs (map (λ c, [c]) ALPHABET) ∅; Ok (Plugboard.Build w).
Proof. destruct pairs; reflexivity. Qed.

Lemma Plugboard_init_ok (pairs : list (str * str)) :
  letter_pairs pairs → NoDup (plug_letters pairs) →
  ∃ w, Plugboard.__init__ (Some pairs) = Ok (Plugboard.Build w)
       ∧ plug_inv w (list_to_set (plug_letters pairs)).
Proof.
  intros Hl Hnd.
  destruct (connect_ok pairs (map (λ c, [c]) ALPHABET) ∅ Hl Hnd) as (w & Hw & Hinv).
  - intros x _. apply not_elem_of_empty.
  - apply plug_inv_init.
  - exists w. rewrite Plugboard_init_connect, Hw. split; [reflexivity|].
    replace (list_to_set (plug_letters pairs) : gset str)
      with (∅ ∪ list_to_set (plug_letters pairs) : gset str)
      by apply (left_id_L ∅ (∪)).
    done.
Qed.

Lemma Plugboard_init_raise (pairs : list (str * str)) :
  letter_pairs pairs → ¬ NoDup (plug_letters pairs) →
  Plugboard.__init__ (Some pairs) = Raise ValueError.
Proof.
  intros Hl Hnd. rewrite Plugboard_init_connect.
  rewrite connect_raise; [reflexivity|done|reflexivity|].
  intros [H _]. done.
Qed.

(** ** C6: the plugboard is an involution *)

(** C6. For a plugboard built from a valid pair list (pairs of distinct
    letters, no letter in two pairs) and every letter of A to Z, [forward]
    applied twice gives the letter back, and a letter that is in no pair
    is mapped to itself. *)
Theorem plugboard_forward_involution (pairs : list (str * str)) (i : Z) :
  valid_pairs pairs → 0 <= i < 26 →
  ∃ pb d,
    Plugboard.__init__ (Some pairs) = Ok pb
    ∧ Plugboard.forward pb (letter i) = Ok d
    ∧ Plugboard.forward pb d = Ok (letter i)
    ∧ (letter i ∉ plug_letters pairs → d = letter i).
Proof.
  intros (Hl & Hs & Hr) Hi.
  assert (NoDup (plug_letters pairs)) as Hnd by (apply NoDup_plug_letters; done).
  destruct (Plugboard_init_ok pairs Hl Hnd) as (w & Hw & Hinv).
  destruct (plug_inv_good _ _ Hinv i Hi) as (j & Hj & Hij & Hji).
  exists (Plugboard.Build w), (letter j).
  repeat split; try done.
  intros Hfree. destruct Hinv as (_ & _ & Hid).
  assert (w !! Z.to_nat i = Some (letter i)) as Hwi.
  { apply Hid; [done|]. rewrite elem_of_list_to_set. done. }
  unfold Plugboard.forward in Hij. simpl in Hij.
  rewrite char_to_idx_letter in Hij by done. simpl in Hij.
  rewrite (getitem_nonneg w i (letter i)) in Hij by (lia || done).
  congruence.
Qed.

Lemma plugboard_forward_involution_witness :
  ∃ pb d,
    Plugboard.__init__ (Some [(lit "A", lit "Z"); (lit "b", lit "y")]) = Ok pb
    ∧ Plugboard.forward pb (letter 25) = Ok d
    ∧ Plugboard.forward pb d = Ok (letter 25)
    ∧ (letter 25 ∉ plug_letters [(lit "A", lit "Z"); (lit "b", lit "y")]
       → d = letter 25).
Proof.
  apply (plugboard_forward_involution [(lit "A", lit "Z"); (lit "b", lit "y")] 25);
    [|lia].
  split; [|split].
  - repeat constructor.
  - intros H. apply Exists_cons in H as [H|H]; [vm_compute in H; discriminate|].
    apply Exists_cons in H as [H|H]; [vm_compute in H; discriminate|].
    apply Exists_nil in H. done.
  - simpl. intros [H|[H|H]]; try done.
    + apply Exists_cons in H as [H|H]; [|apply Exists_nil in H; done].
      destruct H as [H|[H|[H|H]]]; vm_compute in H; discriminate.
    + apply Exists_nil in H. done.
Defined.

(** ** C3: the stepping rule *)

Lemma is_at_notch_ok (r : Rotor.t) :
  pos_ok r → Rotor.is_at_notch r = Ok (at_notch r).
Proof.
  intros Hr. unfold Rotor.is_at_notch, at_notch.
  rewrite ALPHABET_getitem by done. reflexivity.
Qed.

(** C3. One call of the stepping mechanism: when the middle rotor is at
    its notch, the middle and the left rotor advance; otherwise, when the
    right rotor is at its notch, the middle rotor advances; the right rotor
    advances in every case.  Both tests read the positions before the call,
    and a position advances modulo 26. *)
Theorem step_rotors_rule (self : EnigmaMachine.t) (l m r : Rotor.t) :
  EnigmaMachine.rotors self = [l; m; r] → pos_ok m → pos_ok r →
  EnigmaMachine._step_rotors self
  = Ok (EnigmaMachine.set_rotors self (step_spec l m r)).
Proof.
  intros Hrs Hm Hr. unfold EnigmaMachine._step_rotors, step_spec.
  rewrite Hrs. rewrite (is_at_notch_ok m Hm). simpl.
  destruct (at_notch m); [reflexivity|].
  rewrite (is_at_notch_ok r Hr). simpl.
  destruct (at_notch r); reflexivity.
Qed.

Lemma step_rotors_rule_witness :
  let left_ := Rotor.Build (lit "I") (lit "EKMFLGDQVZNTOWYHXUSPAIBRCJ")
                 (lit "UWYGADFPVZBECKMTHXSLRINQOJ") (lit "Q") 0 0 in
  let mid := Rotor.Build (lit "II") (lit "AJDKSIRUXBLHWTMCQGZNPYFVOE")
               (lit "AJPCZWRLFBDKOTYUQGENHXMIVS") (lit "E") 4 0 in
  let right_ := Rotor.Build (lit "III") (lit "BDFHJLCPRTXVZNYEIWGAKMUSQO")
                  (lit "TAGBPCSDQEUFVNZHYIXJWLRKOM") (lit "V") 25 0 in
  let self := EnigmaMachine.Build [left_; mid; right_]
                (Plugboard.Build (map (λ c, [c]) ALPHABET))
                (Reflector.Build (lit "YRUHQSLDPXNGOKMIEBFZCWVJAT")) in
  EnigmaMachine._step_rotors self
  = Ok (EnigmaMachine.set_rotors self (step_spec left_ mid right_))
  ∧ map Rotor.position (step_spec left_ mid right_) = [1; 5; 0].
Proof.
  intros left_ mid right_ self. split.
  - apply (step_rotors_rule self left_ mid right_);
      [reflexivity| |]; unfold pos_ok; simpl; lia.
  - vm_compute. reflexivity.
Defined.

(** ** Well-formed machines *)

Lemma pos_ok_step (r : Rotor.t) : pos_ok (Rotor.step r).
Proof. unfold pos_ok, Rotor.step. simpl. apply Z.mod_pos_bound. lia. Qed.

Lemma same_key_refl (m : EnigmaMachine.t) : same_key m m.
Proof.
  split; [done|]. split; [done|].
  apply Forall2_same_length_lookup. split; [done|].
  intros i r r' H1 H2. rewrite H1 in H2. injection H2 as <-.
  exists (Rotor.position r). destruct r. reflexivity.
Qed.

Lemma same_key_trans (m1 m2 m3 : EnigmaMachine.t) :
  same_key m1 m2 → same_key m2 m3 → same_key m1 m3.
Proof.
  intros (Hp & Hr & Hf) (Hp' & Hr' & Hf').
  split; [congruence|]. split; [congruence|].
  revert Hf'. generalize (EnigmaMachine.rotors m3).
  induction Hf as [|r r' rs rs' [p ->] _ IH]; intros rs3 Hf'.
  - inversion Hf'. constructor.
  - inversion Hf' as [|? r3 ? rs3' [q ->] Hf'']; subst.
    constructor; [|auto]. exists q. reflexivity.
Qed.

Lemma step_rotors_wf (m : EnigmaMachine.t) :
  wf m → ∃ m', EnigmaMachine._step_rotors m = Ok m' ∧ wf m' ∧ same_key m m'.
Proof.
  intros (Hlen & Hg & Hp & Hpb & Hrf).
  destruct (EnigmaMachine.rotors m) as [|l [|c [|r [|? ?]]]] eqn:Hrs;
    try discriminate.
  apply Forall_cons in Hg as [Hgl Hg]. apply Forall_cons in Hg as [Hgc Hg].
  apply Forall_cons in Hg as [Hgr _].
  apply Forall_cons in Hp as [Hpl Hp]. apply Forall_cons in Hp as [Hpc Hp].
  apply Forall_cons in Hp as [Hpr _].
  rewrite (step_rotors_rule m l c r Hrs Hpc Hpr).
  eexists. split; [reflexivity|].
  assert (∀ x, pos_ok (advance x)) as Hadv by apply pos_ok_step.
  unfold step_spec.
  split; [|split; [done|split; [done|]]].
  - unfold wf. simpl.
    destruct (at_notch c); [|destruct (at_notch r)]; simpl;
      (split; [done|]);
      (split; [repeat first [apply Forall_nil_2 | apply Forall_cons_2]; done|]);
      (split; [repeat first [apply Forall_nil_2 | apply Forall_cons_2]; auto|done]).
  - simpl. rewrite Hrs.
    assert (∀ x : Rotor.t, ∃ p, x = Rotor.set_position x p) as Hsame
      by (intros x; exists (Rotor.position x); destruct x; reflexivity).
    assert (∀ x : Rotor.t, ∃ p, advance x = Rotor.set_position x p) as Hsame'
      by (intros x; eexists; reflexivity).
    destruct (at_notch c); [|destruct (at_notch r)];
      repeat first [apply Forall2_nil_2 | apply Forall2_cons_2]; auto.
Qed.

(** ** The signal path *)

Lemma bind_ret {A B} (a : A) (f : A → result B) : Ok a ≫= f = f a.
Proof. reflexivity. Qed.

Lemma through_app f (l1 l2 : list Rotor.t) (x : Z) :
  EnigmaMachine.through f (l1 ++ l2) x
  = EnigmaMachine.through f l1 x ≫= EnigmaMachine.through f l2.
Proof.
  revert x. induction l1 as [|r l1 IH]; intros x; simpl; [reflexivity|].
  destruct (f r x); simpl; [apply IH|reflexivity].
Qed.

Lemma through_forward_backward (rs : list Rotor.t) :
  Forall good_rotor rs → ∀ x, 0 <= x < 26 →
  ∃ y, 0 <= y < 26
       ∧ EnigmaMachine.through Rotor.forward (rev rs) x = Ok y
       ∧ EnigmaMachine.through Rotor.backward rs y = Ok x.
Proof.
  induction 1 as [|r rs Hr _ IH]; intros x Hx.
  - exists x. done.
  - destruct (IH x Hx) as (y1 & Hy1 & Hf & Hb).
    destruct (good_rotor_forward r y1 Hr Hy1) as (y & Hy & Hf' & Hb').
    exists y. split; [done|]. simpl. rewrite through_app, Hf. simpl.
    rewrite Hf', Hb'. simpl. done.
Qed.

Lemma through_backward_forward (rs : list Rotor.t) :
  Forall good_rotor rs → ∀ x, 0 <= x < 26 →
  ∃ y, 0 <= y < 26
       ∧ EnigmaMachine.through Rotor.backward rs x = Ok y
       ∧ EnigmaMachine.through Rotor.forward (rev rs) y = Ok x.
Proof.
  induction 1 as [|r rs Hr _ IH]; intros x Hx.
  - exists x. done.
  - destruct (good_rotor_backward r x Hr Hx) as (x1 & Hx1 & Hb & Hf).
    destruct (IH x1 Hx1) as (y & Hy & Hb' & Hf').
    exists y. split; [done|]. simpl. rewrite through_app, Hf', Hb. simpl.
    rewrite Hb', Hf. done.
Qed.

Lemma signal_path_involution (m : EnigmaMachine.t) (x : Z) :
  Forall good_rotor (EnigmaMachine.rotors m) →
  good_reflector (EnigmaMachine.reflector m) →
  0 <= x < 26 →
  ∃ y, 0 <= y < 26 ∧ y ≠ x
       ∧ signal_path m x = Ok y ∧ signal_path m y = Ok x.
Proof.
  intros Hg Hr Hx. unfold signal_path.
  destruct (through_forward_backward _ Hg x Hx) as (a & Ha & Hfa & Hba).
  destruct (check_reflector_spec _ a Hr Ha) as (b & Hb & Hne & Hab & Hba').
  destruct (through_backward_forward _ Hg b Hb) as (y & Hy & Hby & Hfy).
  exists y. split; [done|]. split.
  - intros ->. rewrite Hfa in Hfy. congruence.
  - change (tbl (Reflector.wiring (EnigmaMachine.reflector m)) a = Ok b)
      with (Reflector.reflect (EnigmaMachine.reflector m) a = Ok b) in Hab.
    change (tbl (Reflector.wiring (EnigmaMachine.reflector m)) b = Ok a)
      with (Reflector.reflect (EnigmaMachine.reflector m) b = Ok a) in Hba'.
    rewrite Hfa, Hfy, !bind_ret, Hab, Hba', !bind_ret. done.
Qed.

(** ** One character *)

Lemma encrypt_char_unfold (m : EnigmaMachine.t) (c : str) :
  EnigmaMachine._encrypt_char m c
  = self ← EnigmaMachine._step_rotors m;
    p ← Plugboard.forward (EnigmaMachine.plugboard self) c;
    s ← char_to_idx p;
    s' ← signal_path self s;
    a ← idx_to_char s';
    o ← Plugboard.forward (EnigmaMachine.plugboard self) a;
    Ok (self, o).
Proof.
  unfold EnigmaMachine._encrypt_char, signal_path.
  destruct (EnigmaMachine._step_rotors m) as [self|]; simpl; [|reflexivity].
  destruct (Plugboard.forward _ c) as [p|]; simpl; [|reflexivity].
  destruct (char_to_idx p) as [s|]; simpl; [|reflexivity].
  destruct (EnigmaMachine.through Rotor.forward _ s) as [s1|]; simpl; [|reflexivity].
  destruct (Reflector.reflect _ s1) as [s2|]; simpl; reflexivity.
Qed.

(** A letter is enciphered to another letter, and that letter, keyed in
    the same state, gives the first one back. *)
Lemma encrypt_char_involution (m : EnigmaMachine.t) (x : Z) :
  wf m → 0 <= x < 26 →
  ∃ m' y, 0 <= y < 26
          ∧ EnigmaMachine._step_rotors m = Ok m' ∧ wf m' ∧ same_key m m'
          ∧ EnigmaMachine._encrypt_char m (letter x) = Ok (m', letter y)
          ∧ EnigmaMachine._encrypt_char m (letter y) = Ok (m', letter x).
Proof.
  intros Hwf Hx.
  destruct (step_rotors_wf m Hwf) as (m' & Hstep & Hwf' & Hsame).
  destruct Hwf' as (Hlen & Hg & Hp & Hpb & Hrf).
  destruct (Hpb x Hx) as (a & Ha & Hxa & Hax).
  destruct (signal_path_involution m' a Hg Hrf Ha) as (b & Hb & _ & Hab & Hba).
  destruct (Hpb b Hb) as (y & Hy & Hby & Hyb).
  exists m', y. split; [done|]. split; [done|].
  split; [done|]. split; [done|].
  rewrite !encrypt_char_unfold, Hstep. simpl.
  rewrite Hxa, Hyb. simpl.
  rewrite !char_to_idx_letter by done. simpl.
  rewrite Hab, Hba. simpl.
  rewrite !idx_to_char_letter by done. simpl.
  rewrite Hby, Hax. done.
Qed.

(** Stepping and enciphering move rotors only. *)
Lemma step_rotors_same_key (m m' : EnigmaMachine.t) :
  EnigmaMachine._step_rotors m = Ok m' → same_key m m'.
Proof.
  unfold EnigmaMachine._step_rotors. intros H.
  destruct (EnigmaMachine.rotors m) as [|l [|c [|r [|? ?]]]] eqn:Hrs;
    try discriminate H.
  assert (∀ x : Rotor.t, ∃ p, x = Rotor.set_position x p) as Hsame
    by (intros x; exists (Rotor.position x); destruct x; reflexivity).
  assert (∀ x : Rotor.t, ∃ p, Rotor.step x = Rotor.set_position x p) as Hsame'
    by (intros x; eexists; reflexivity).
  destruct (Rotor.is_at_notch c) as [[|]|]; simpl in H; [| |discriminate H].
  - injection H as <-. split; [done|]. split; [done|]. simpl. rewrite Hrs.
    repeat first [apply Forall2_nil_2 | apply Forall2_cons_2]; auto.
  - destruct (Rotor.is_at_notch r) as [[|]|]; simpl in H; [| |discriminate H];
      injection H as <-; (split; [done|]); (split; [done|]); simpl; rewrite Hrs;
      repeat first [apply Forall2_nil_2 | apply Forall2_cons_2]; auto.
Qed.

Lemma encrypt_char_same_key (m m' : EnigmaMachine.t) (c o : str) :
  EnigmaMachine._encrypt_char m c = Ok (m', o) → same_key m m'.
Proof.
  unfold EnigmaMachine._encrypt_char. intros H.
  destruct (EnigmaMachine._step_rotors m) as [m2|] eqn:Hstep; [|discriminate H].
  rewrite bind_ret in H.
  repeat match type of H with
         | (?x ≫= _) = _ => destruct x; [rewrite bind_ret in H|discriminate H]
         end.
  injection H as <- _. apply step_rotors_same_key, Hstep.
Qed.


(** ** Texts *)

Lemma upper_cp_nonalpha (c : Z) : isalpha_cp c = false → upper_cp c = [c].
Proof.
  unfold isalpha_cp, upper_cp, in_range. intros H.
  repeat match goal with
         | |- context [?a <=? ?b] => destruct (Z.leb_spec a b)
         | |- context [?a =? ?b] => destruct (Z.eqb_spec a b)
         end; simpl in *; try reflexivity; try lia;
  repeat match goal with
         | H : context [?a <=? ?b] |- _ => destruct (Z.leb_spec a b)
         | H : context [?a =? ?b] |- _ => destruct (Z.eqb_spec a b)
         end; simpl in *; try discriminate; lia.
Qed.

Lemma upper_cp_AZ (c : Z) : in_range 65 90 c = true → upper_cp c = [c].
Proof.
  intros H. apply in_range_spec in H.
  replace c with (65 + (c - 65)) by lia.
  pose proof (upper_letter (c - 65)) as Hu. unfold upper, letter in Hu.
  simpl in Hu. rewrite app_nil_r in Hu. apply Hu. lia.
Qed.

Lemma isalpha_AZ (c : Z) : in_range 65 90 c = true → isalpha_cp c = true.
Proof. intros H. unfold isalpha_cp. rewrite H. reflexivity. Qed.

Lemma upper_app (s t : str) : upper (s ++ t) = upper s ++ upper t.
Proof. unfold upper. rewrite map_app, concat_app. reflexivity. Qed.

Lemma upper_cons (c : Z) (s : str) : upper (c :: s) = upper_cp c ++ upper s.
Proof. reflexivity. Qed.

Lemma encrypt_loop_cons (m : EnigmaMachine.t) (c : Z) (rest : str) (out : list str) :
  EnigmaMachine.encrypt_loop m (c :: rest) out
  = if isalpha_cp c then
      '(m', o) ← EnigmaMachine._encrypt_char m [c];
      EnigmaMachine.encrypt_loop m' rest (out ++ [o])
    else EnigmaMachine.encrypt_loop m rest (out ++ [[c]]).
Proof. reflexivity. Qed.

Lemma encrypt_loop_acc (cs : str) :
  ∀ (m : EnigmaMachine.t) (acc : list str),
    EnigmaMachine.encrypt_loop m cs acc
    = '(m1, out) ← EnigmaMachine.encrypt_loop m cs []; Ok (m1, acc ++ out).
Proof.
  induction cs as [|c cs IH]; intros m acc.
  - simpl. rewrite app_nil_r. reflexivity.
  - rewrite !encrypt_loop_cons. destruct (isalpha_cp c).
    + destruct (EnigmaMachine._encrypt_char m [c]) as [[m' o]|]; simpl; [|reflexivity].
      rewrite (IH m' (acc ++ [o])), (IH m' [o]).
      destruct (EnigmaMachine.encrypt_loop m' cs []) as [[m1 out]|]; simpl; [|reflexivity].
      rewrite <- app_assoc. reflexivity.
    + simpl. rewrite (IH m (acc ++ [[c]])), (IH m [[c]]).
      destruct (EnigmaMachine.encrypt_loop m cs []) as [[m1 out]|]; simpl; [|reflexivity].
      rewrite <- app_assoc. reflexivity.
Qed.

Lemma encrypt_loop_app (cs1 cs2 : str) :
  ∀ (m : EnigmaMachine.t) (acc : list str),
    EnigmaMachine.encrypt_loop m (cs1 ++ cs2) acc
    = '(m1, out) ← EnigmaMachine.encrypt_loop m cs1 acc;
      EnigmaMachine.encrypt_loop m1 cs2 out.
Proof.
  induction cs1 as [|c cs1 IH]; intros m acc; [reflexivity|].
  rewrite <- app_comm_cons, !encrypt_loop_cons. destruct (isalpha_cp c).
  - destruct (EnigmaMachine._encrypt_char m [c]) as [[m' o]|]; simpl; [|reflexivity].
    apply IH.
  - apply IH.
Qed.

(** The loop of [encrypt] on a text whose letters are A to Z, from a
    well-formed machine: it ends, and run again from the same state on its
    own output it gives the text back. *)
Lemma encrypt_loop_round (cs : str) :
  ∀ (m : EnigmaMachine.t) (acc : list str),
    wf m → Forall (λ c, isalpha_cp c = true → in_range 65 90 c = true) cs →
    ∃ m1 ct,
      EnigmaMachine.encrypt_loop m cs acc = Ok (m1, acc ++ map (λ c, [c]) ct)
      ∧ wf m1 ∧ same_key m m1 ∧ upper ct = ct
      ∧ ∀ acc2, EnigmaMachine.encrypt_loop m ct acc2
                = Ok (m1, acc2 ++ map (λ c, [c]) cs).
Proof.
  induction cs as [|c cs IH]; intros m acc Hwf Hcs.
  - exists m, []. simpl. rewrite app_nil_r.
    split; [done|]. split; [done|]. split; [apply same_key_refl|].
    split; [done|]. intros acc2. rewrite app_nil_r. done.
  - apply Forall_cons in Hcs as [Hc Hcs].
    rewrite encrypt_loop_cons. destruct (isalpha_cp c) eqn:Halpha.
    + specialize (Hc eq_refl). pose proof Hc as Hc'. apply in_range_spec in Hc'.
      destruct (encrypt_char_involution m (c - 65) Hwf) as
        (m' & y & Hy & _ & Hwf' & Hsame & Hxy & Hyx); [lia|].
      unfold letter in Hxy, Hyx. replace (65 + (c - 65)) with c in * by lia.
      rewrite Hxy. simpl.
      destruct (IH m' (acc ++ [[65 + y]]) Hwf' Hcs) as (m1 & ct & Hl & Hwf1 & Hs1 & Hu & Hback).
      exists m1, ((65 + y) :: ct).
      assert (in_range 65 90 (65 + y) = true) as Hry by (apply in_range_spec; lia).
      split; [rewrite Hl, <- app_assoc; reflexivity|].
      split; [done|]. split; [eapply same_key_trans; eassumption|].
      split; [rewrite upper_cons, upper_cp_AZ, Hu by done; reflexivity|].
      intros acc2. rewrite encrypt_loop_cons, (isalpha_AZ _ Hry), Hyx. simpl.
      rewrite Hback, <- app_assoc. reflexivity.
    + destruct (IH m (acc ++ [[c]]) Hwf Hcs) as (m1 & ct & Hl & Hwf1 & Hs1 & Hu & Hback).
      exists m1, (c :: ct).
      split; [rewrite Hl, <- app_assoc; reflexivity|].
      split; [done|]. split; [done|].
      split; [rewrite upper_cons, upper_cp_nonalpha, Hu by done; reflexivity|].
      intros acc2. rewrite encrypt_loop_cons, Halpha.
      rewrite Hback, <- app_assoc. reflexivity.
Qed.

Lemma concat_singletons (s : str) : concat (map (λ c, [c]) s) = s.
Proof. induction s as [|c s IH]; simpl; [|rewrite IH]; reflexivity. Qed.

Lemma encrypt_round (m : EnigmaMachine.t) (text : str) :
  wf m → letters_AZ text →
  ∃ m1 ct, EnigmaMachine.encrypt m text = Ok (m1, ct)
           ∧ wf m1 ∧ same_key m m1
           ∧ EnigmaMachine.encrypt m ct = Ok (m1, upper text).
Proof.
  intros Hwf Htext.
  destruct (encrypt_loop_round (upper text) m [] Hwf Htext)
    as (m1 & ct & Hl & Hwf1 & Hs1 & Hu & Hback).
  exists m1, ct. unfold EnigmaMachine.encrypt.
  rewrite Hl. simpl. rewrite concat_singletons.
  split; [done|]. split; [done|]. split; [done|].
  rewrite Hu, Hback. simpl. rewrite concat_singletons. done.
Qed.

(** [upper] never shortens a text, and [char_to_idx] wants one character. *)
Lemma upper_cp_nonempty (c : Z) : (1 <= length (upper_cp c))%nat.
Proof.
  unfold upper_cp.
  repeat match goal with
         | |- context [if ?b then _ else _] => destruct b
         end; simpl; lia.
Qed.

Lemma upper_length (s : str) : (length s <= length (upper s))%nat.
Proof.
  induction s as [|c s IH]; [done|].
  rewrite upper_cons, length_app. pose proof (upper_cp_nonempty c). simpl. lia.
Qed.

Lemma char_to_idx_not_one (s : str) :
  length s ≠ 1%nat → char_to_idx s = Raise TypeError.
Proof.
  intros H. unfold char_to_idx. pose proof (upper_length s) as Hl.
  destruct s as [|c [|c' s]]; [reflexivity|done|].
  rewrite !upper_cons, !length_app in Hl. rewrite !upper_cons.
  pose proof (upper_cp_nonempty c). pose proof (upper_cp_nonempty c').
  destruct (upper_cp c) as [|x [|? ?]]; simpl in *; try lia; try reflexivity.
  destruct (upper_cp c') as [|y ?]; simpl in *; [lia|reflexivity].
Qed.

Lemma char_to_idx_TypeError (s : str) :
  (∃ k, char_to_idx s = Ok k) ∨ char_to_idx s = Raise TypeError.
Proof.
  unfold char_to_idx, ord. destruct (upper s) as [|c [|? ?]]; simpl; eauto.
Qed.


(** ** C8: characters that are not alphabetic *)

Lemma encrypt_char_letter (m m' : EnigmaMachine.t) (c o : str) :
  wf m → EnigmaMachine._encrypt_char m c = Ok (m', o) →
  wf m' ∧ ∃ y, 0 <= y < 26 ∧ o = letter y.
Proof.
  intros Hwf H. rewrite encrypt_char_unfold in H.
  destruct (step_rotors_wf m Hwf) as (m2 & Hstep & Hwf2 & _).
  rewrite Hstep, bind_ret in H.
  destruct (Plugboard.forward _ c) as [p|]; [|discriminate]. rewrite bind_ret in H.
  destruct (char_to_idx p) as [s|]; [|discriminate]. rewrite bind_ret in H.
  destruct (signal_path m2 s) as [s'|]; [|discriminate]. rewrite bind_ret in H.
  assert (0 <= s' mod 26 < 26) as Hs by (apply Z.mod_pos_bound; lia).
  unfold idx_to_char in H. rewrite ALPHABET_getitem, bind_ret in H by done.
  destruct Hwf2 as (Hlen & Hg & Hp & Hpb & Hrf).
  destruct (Hpb _ Hs) as (y & Hy & Hf & _).
  pose proof Hpb as Hpb'.
  rewrite Hf, bind_ret in H. injection H as <- <-.
  split; [done|]. eauto.
Qed.

Lemma getitem_elem {A} (l : list A) (i : Z) (x : A) :
  getitem l i = Ok x → x ∈ l.
Proof.
  unfold getitem. intros H.
  destruct (norm_index (length l) i) as [k|]; [|discriminate H].
  rewrite bind_ret in H. destruct (l !! k) as [y|] eqn:E; [|discriminate H].
  injection H as <-. exact (list_elem_of_lookup_2 _ _ _ E).
Qed.

Lemma setitem_Forall {A} (P : A → Prop) (l l' : list A) (i : Z) (x : A) :
  Forall P l → P x → setitem l i x = Ok l' → Forall P l'.
Proof.
  unfold setitem. intros Hl Hx H.
  destruct (norm_index (length l) i) as [k|]; [|discriminate H].
  rewrite bind_ret in H. injection H as <-. apply Forall_insert; done.
Qed.

Lemma char_to_idx_one (s : str) (k : Z) :
  char_to_idx s = Ok k → length s = 1%nat.
Proof.
  intros H. destruct (decide (length s = 1%nat)) as [|Hn]; [done|].
  rewrite (char_to_idx_not_one _ Hn) in H. discriminate H.
Qed.

(** The constructor of the plugboard stores characters only: [ord] has
    accepted each of them. *)
Lemma connect_chars (pairs : list (str * str)) :
  ∀ (w : list str) (used : gset str) (w' : list str),
    Forall (λ s : str, length s = 1%nat) w →
    Plugboard.connect pairs w used = Ok w' →
    Forall (λ s : str, length s = 1%nat) w'.
Proof.
  induction pairs as [|[a b] rest IH]; intros w used w' Hw H.
  - injection H as <-. exact Hw.
  - cbn [Plugboard.connect] in H.
    destruct (bool_decide (upper a = upper b)); [discriminate H|].
    destruct (bool_decide (upper a ∈ used) || bool_decide (upper b ∈ used));
      [discriminate H|].
    destruct (char_to_idx (upper a)) as [ia|] eqn:Ea; [|discriminate H].
    rewrite bind_ret in H.
    destruct (setitem w ia (upper b)) as [w1|] eqn:E1; [|discriminate H].
    rewrite bind_ret in H.
    destruct (char_to_idx (upper b)) as [ib|] eqn:Eb; [|discriminate H].
    rewrite bind_ret in H.
    destruct (setitem w1 ib (upper a)) as [w2|] eqn:E2; [|discriminate H].
    rewrite bind_ret in H.
    eapply IH; [|exact H].
    apply (setitem_Forall _ w1 w2 ib (upper a)); [|exact (char_to_idx_one _ _ Ea)|exact E2].
    apply (setitem_Forall _ w w1 ia (upper b)); [exact Hw|exact (char_to_idx_one _ _ Eb)|exact E1].
Qed.

Lemma Plugboard_init_chars (pairs : option (list (str * str))) (pb : Plugboard.t) :
  Plugboard.__init__ pairs = Ok pb →
  Forall (λ s : str, length s = 1%nat) (Plugboard.wiring pb).
Proof.
  assert (Forall (λ s : str, length s = 1%nat) (map (λ c : Z, [c]) ALPHABET))
    as H0 by (apply Forall_fmap, Forall_true; done).
  unfold Plugboard.__init__. intros H.
  destruct pairs as [[|p ps]|]; try (injection H as <-; exact H0).
  destruct (Plugboard.connect (p :: ps) _ ∅) as [w|] eqn:E; [|discriminate H].
  rewrite bind_ret in H. injection H as <-. exact (connect_chars _ _ _ _ H0 E).
Qed.

(** Every machine that the constructor returns has a plugboard table of
    characters, whatever the arguments were. *)
Lemma init_plug_chars (rotor_names positions ring_settings : list str)
    (plugboard : option (list (str * str))) (reflector : str)
    (m : EnigmaMachine.t) :
  EnigmaMachine.__init__ rotor_names positions ring_settings plugboard reflector
  = Ok m →
  plug_chars m.
Proof.
  unfold EnigmaMachine.__init__. intros H.
  destruct (bool_decide (length rotor_names ≠ 3%nat)); [discriminate H|].
  destruct (EnigmaMachine.build_rotors _) as [rs|]; [|discriminate H].
  rewrite bind_ret in H.
  destruct (Plugboard.__init__ _) as [pb|] eqn:E; [|discriminate H].
  rewrite bind_ret in H.
  destruct (Reflector.__init__ reflector) as [rf|]; [|discriminate H].
  rewrite bind_ret in H. injection H as <-.
  exact (Plugboard_init_chars _ _ E).
Qed.

(** A keypress gives one character and leaves the plugboard table alone. *)
Lemma encrypt_char_one (m m' : EnigmaMachine.t) (c o : str) :
  plug_chars m → EnigmaMachine._encrypt_char m c = Ok (m', o) →
  plug_chars m' ∧ length o = 1%nat.
Proof.
  intros Hm H. destruct (encrypt_char_same_key _ _ _ _ H) as (Hpb & _).
  assert (plug_chars m') as Hm' by (unfold plug_chars; rewrite Hpb; exact Hm).
  split; [exact Hm'|].
  rewrite encrypt_char_unfold in H.
  destruct (EnigmaMachine._step_rotors m) as [m2|]; [|discriminate H].
  rewrite bind_ret in H.
  destruct (Plugboard.forward _ c) as [p|]; [|discriminate H]. rewrite bind_ret in H.
  destruct (char_to_idx p) as [s|]; [|discriminate H]. rewrite bind_ret in H.
  destruct (signal_path m2 s) as [s'|]; [|discriminate H]. rewrite bind_ret in H.
  destruct (idx_to_char s') as [a|]; [|discriminate H]. rewrite bind_ret in H.
  destruct (Plugboard.forward _ a) as [o'|] eqn:Ef; [|discriminate H].
  rewrite bind_ret in H. injection H as <- <-.
  unfold Plugboard.forward in Ef.
  destruct (char_to_idx a) as [k|]; [|discriminate Ef]. rewrite bind_ret in Ef.
  apply getitem_elem in Ef.
  exact (proj1 (Forall_forall _ _) Hm' _ Ef).
Qed.

Lemma encrypt_loop_length (cs : str) :
  ∀ (m m1 : EnigmaMachine.t) (acc out : list str),
    plug_chars m → EnigmaMachine.encrypt_loop m cs acc = Ok (m1, out) →
    ∃ ct, out = acc ++ map (λ c, [c]) ct ∧ length ct = length cs.
Proof.
  induction cs as [|c cs IH]; intros m m1 acc out Hm H.
  - injection H as <- <-. exists []. simpl. rewrite app_nil_r. done.
  - rewrite encrypt_loop_cons in H. destruct (isalpha_cp c).
    + destruct (EnigmaMachine._encrypt_char m [c]) as [[m' o]|] eqn:Ec; [|discriminate].
      rewrite bind_ret in H.
      destruct (encrypt_char_one _ _ _ _ Hm Ec) as (Hm' & Ho).
      destruct o as [|y [|? ?]]; try discriminate Ho.
      destruct (IH _ _ _ _ Hm' H) as (ct & -> & Hlen).
      exists (y :: ct). rewrite <- app_assoc. simpl. split; [done|lia].
    + destruct (IH _ _ _ _ Hm H) as (ct & -> & Hlen).
      exists (c :: ct). rewrite <- app_assoc. simpl. split; [done|lia].
Qed.

(** Within Latin-1 the one character that [upper] lengthens is U+00DF. *)
Lemma upper_length_no_sharp_s (s : str) :
  Forall (λ x, x ≠ 223) s → length (upper s) = length s.
Proof.
  induction 1 as [|c s Hc _ IH]; [reflexivity|].
  rewrite upper_cons, length_app, IH. simpl. f_equal.
  unfold upper_cp.
  destruct (in_range 97 122 c); [reflexivity|].
  destruct (c =? 181); [reflexivity|].
  destruct (c =? 223) eqn:E; [apply Z.eqb_eq in E; done|].
  destruct (in_range 224 246 c || in_range 248 254 c); [reflexivity|].
  destruct (c =? 255); reflexivity.
Qed.

(** C8, as the code behaves.  In a text of Latin-1 characters, a
    character [c] that is not alphabetic, with the text [t1] before it and
    [t2] after it:
    - on its own it is returned as it is and the machine is left as it
      was, for every machine state;
    - the text is enciphered as [t1], then [c] unchanged, then [t2] from
      the machine that [t1] left: no rotor moves for [c];
    - in a machine whose plugboard table holds characters, [c] stands in
      the output at the place it has in the uppercased text;
    - that place is its place in the input when no U+00DF, which [upper]
      turns into "SS", stands before it. *)
Theorem non_alphabetic_passthrough
    (m : EnigmaMachine.t) (t1 t2 : str) (c : Z) :
  latin1 (t1 ++ c :: t2) → isalpha_cp c = false →
  EnigmaMachine.encrypt m [c] = Ok (m, [c])
  ∧ EnigmaMachine.encrypt m (t1 ++ c :: t2)
    = ('(m1, o1) ← EnigmaMachine.encrypt m t1;
       '(m2, o2) ← EnigmaMachine.encrypt m1 t2;
       Ok (m2, o1 ++ c :: o2))
  ∧ (∀ m2 out, plug_chars m →
       EnigmaMachine.encrypt m (t1 ++ c :: t2) = Ok (m2, out) →
       upper (t1 ++ c :: t2) !! length (upper t1) = Some c
       ∧ out !! length (upper t1) = Some c)
  ∧ (Forall (λ x, x ≠ 223) t1 → length (upper t1) = length t1).
Proof.
  intros _ Halpha.
  pose proof (upper_cp_nonalpha c Halpha) as Hup.
  assert (EnigmaMachine.encrypt m (t1 ++ c :: t2)
          = ('(m1, o1) ← EnigmaMachine.encrypt m t1;
             '(m2, o2) ← EnigmaMachine.encrypt m1 t2;
             Ok (m2, o1 ++ c :: o2))) as Hsplit.
  { unfold EnigmaMachine.encrypt.
    rewrite upper_app, upper_cons, Hup. simpl app.
    rewrite encrypt_loop_app.
    destruct (EnigmaMachine.encrypt_loop m (upper t1) []) as [[m1 out1]|];
      [|reflexivity].
    rewrite !bind_ret. cbv beta iota.
    rewrite encrypt_loop_cons, Halpha, encrypt_loop_acc.
    destruct (EnigmaMachine.encrypt_loop m1 (upper t2) []) as [[m2 out2]|];
      [|reflexivity].
    rewrite !bind_ret. cbv beta iota.
    rewrite !concat_app, <- app_assoc. reflexivity. }
  split; [|split; [exact Hsplit|split]].
  - unfold EnigmaMachine.encrypt. rewrite upper_cons, Hup. simpl.
    rewrite Halpha. reflexivity.
  - intros m2 out Hm H. rewrite Hsplit in H.
    destruct (EnigmaMachine.encrypt m t1) as [[m1 o1]|] eqn:E1; [|discriminate H].
    rewrite bind_ret in H. cbv beta iota in H.
    destruct (EnigmaMachine.encrypt m1 t2) as [[m2' o2]|]; [|discriminate H].
    rewrite bind_ret in H. cbv beta iota in H. injection H as <- <-.
    assert (length o1 = length (upper t1)) as Hlen.
    { unfold EnigmaMachine.encrypt in E1.
      destruct (EnigmaMachine.encrypt_loop m (upper t1) []) as [[m1' l]|] eqn:El;
        [|discriminate E1].
      rewrite bind_ret in E1. cbv beta iota in E1. injection E1 as <- <-.
      destruct (encrypt_loop_length _ _ _ _ _ Hm El) as (ct & -> & Hct).
      simpl. rewrite concat_singletons. exact Hct. }
    split.
    + rewrite upper_app, upper_cons, Hup.
      rewrite lookup_app_r by lia. rewrite Nat.sub_diag. reflexivity.
    + rewrite lookup_app_r by lia. rewrite Hlen, Nat.sub_diag. reflexivity.
  - apply upper_length_no_sharp_s.
Qed.

Lemma non_alphabetic_passthrough_witness :
  ∃ m, example_machine = Ok m
       ∧ EnigmaMachine.encrypt m (lit " ") = Ok (m, lit " ")
       ∧ EnigmaMachine.encrypt m (lit "AB" ++ 32 :: lit "CD")
         = ('(m1, o1) ← EnigmaMachine.encrypt m (lit "AB");
            '(m2, o2) ← EnigmaMachine.encrypt m1 (lit "CD");
            Ok (m2, o1 ++ 32 :: o2))
       ∧ (∀ m2 out, plug_chars m →
            EnigmaMachine.encrypt m (lit "AB" ++ 32 :: lit "CD") = Ok (m2, out) →
            upper (lit "AB" ++ 32 :: lit "CD") !! length (upper (lit "AB"))
            = Some 32
            ∧ out !! length (upper (lit "AB")) = Some 32)
       ∧ (Forall (λ x, x ≠ 223) (lit "AB")
          → length (upper (lit "AB")) = length (lit "AB")).
Proof.
  eexists. split; [vm_compute; reflexivity|].
  apply (non_alphabetic_passthrough _ (lit "AB") (lit "CD") 32).
  - apply (bool_decide_unpack _). vm_compute. exact I.
  - reflexivity.
Defined.

(** C8 as stated does not hold: in the text "ß " the space is the second
    character; the text is uppercased to "SS ", both letters are
    enciphered, and the second character of the output is a letter, the
    space coming third. *)
Lemma passthrough_position_refuted :
  [223; 32] !! 1%nat = Some 32
  ∧ isalpha_cp 32 = false
  ∧ ∃ m m1 out,
      example_machine = Ok m
      ∧ plug_chars m
      ∧ EnigmaMachine.encrypt m [223; 32] = Ok (m1, out)
      ∧ out = [74; 88; 32]
      ∧ out !! 1%nat ≠ Some 32.
Proof.
  split; [reflexivity|]. split; [reflexivity|].
  destruct example_machine as [m|] eqn:Hm; [|vm_compute in Hm; discriminate Hm].
  pose proof (init_plug_chars _ _ _ _ _ _ Hm) as Hc.
  assert ((m ← example_machine; EnigmaMachine.encrypt m [223; 32])
          = (m ← example_machine;
             m1 ← Nat.iter 2 (λ r, m ← r; EnigmaMachine._step_rotors m) (Ok m);
             Ok (m1, [74; 88; 32]))) as H
    by (vm_compute; reflexivity).
  rewrite Hm, !bind_ret in H.
  destruct (Nat.iter 2 _ (Ok m)) as [m1|] eqn:E.
  - exists m, m1, [74; 88; 32]. rewrite bind_ret in H.
    split; [reflexivity|]. split; [exact Hc|]. split; [exact H|].
    split; [reflexivity|]. discriminate.
  - exfalso. vm_compute in Hm. injection Hm as <-. vm_compute in E. discriminate E.
Qed.

(** ** C4: runtime errors during encryption *)

(** C4, at a failing input.  The text "é" (U+00E9) is uppercased to "É"
    (U+00C9), which [isalpha] accepts; its index 136 is outside the
    plugboard table and the subscript raises [IndexError]. *)
Theorem encrypt_accented_letter_raises :
  isalpha_cp 201 = true
  ∧ upper [233] = [201]
  ∧ char_to_idx [201] = Ok 136
  ∧ (m ← example_machine; EnigmaMachine.encrypt m [233]) = Raise IndexError.
Proof. repeat split; vm_compute; reflexivity. Qed.

(** What holds instead: on a text whose letters, once uppercased, are all
    of A to Z, [encrypt] raises nothing. *)
Lemma encrypt_letters_AZ_total (m : EnigmaMachine.t) (text : str) :
  wf m → letters_AZ text →
  ∃ m1 ct, EnigmaMachine.encrypt m text = Ok (m1, ct) ∧ wf m1.
Proof.
  intros Hwf Ht. destruct (encrypt_round m text Hwf Ht) as (m1 & ct & H & Hwf1 & _).
  eauto.
Qed.

(** ** Construction *)

Lemma Rotor_init_catalog (name p r : str) :
  rotor_in_catalog name → is_letter p = true → is_letter r = true →
  ∃ rot, Rotor.__init__ name p r = Ok rot
         ∧ good_rotor rot
         ∧ Rotor.position rot = letter_idx p
         ∧ Rotor.ring rot = letter_idx r.
Proof.
  intros Hn Hp Hr. apply elem_of_dom in Hn as [[w n] Hw].
  destruct (ROTOR_WIRINGS_catalog _ _ _ Hw) as (rev & j & Hi & Hck & _).
  exists (Rotor.Build name w rev n (letter_idx p) (letter_idx r)).
  unfold Rotor.__init__, dict_getitem. rewrite Hw, bind_ret. cbv beta iota.
  rewrite Hi, bind_ret, !char_to_idx_is_letter by done. done.
Qed.


Lemma build_rotors_ok (l : list (str * str * str)) :
  Forall (λ t, rotor_in_catalog t.1.1 ∧ is_letter t.1.2 = true
               ∧ is_letter t.2 = true) l →
  ∃ rs, EnigmaMachine.build_rotors l = Ok rs
        ∧ Forall good_rotor rs
        ∧ Forall2 (λ rot t, Rotor.position rot = letter_idx t.1.2) rs l.
Proof.
  induction 1 as [|[[n p] r] l (Hn & Hp & Hr) _ (rs & Hrs & Hg & Hpos)].
  - exists []. repeat constructor.
  - simpl in Hn, Hp, Hr.
    destruct (Rotor_init_catalog n p r Hn Hp Hr) as (rot & Hrot & Hgr & Hpr & _).
    exists (rot :: rs). simpl. rewrite Hrot, bind_ret, Hrs, bind_ret.
    split; [done|]. split; constructor; done.
Qed.


(** With at least three window letters and three ring letters, [zip]
    pairs each of the three rotor names. *)
Lemma zip3_three (names positions rings : list str) :
  length names = 3%nat → three_letters positions → three_letters rings →
  ∃ n1 n2 n3 p1 p2 p3 r1 r2 r3,
    names = [n1; n2; n3]
    ∧ take 3 positions = [p1; p2; p3]
    ∧ EnigmaMachine.zip3 names positions rings
      = [(n1, p1, r1); (n2, p2, r2); (n3, p3, r3)]
    ∧ Forall (λ s, is_letter s = true) [p1; p2; p3; r1; r2; r3].
Proof.
  intros Hn [Hlp Hp] [Hlr Hr].
  destruct names as [|n1 [|n2 [|n3 [|? ?]]]]; try discriminate.
  destruct positions as [|p1 [|p2 [|p3 ps]]]; simpl in Hlp; try lia.
  destruct rings as [|r1 [|r2 [|r3 rs]]]; simpl in Hlr; try lia.
  exists n1, n2, n3, p1, p2, p3, r1, r2, r3.
  split; [done|]. split; [done|]. split; [done|].
  apply Forall_cons in Hp as [? Hp]. apply Forall_cons in Hp as [? Hp].
  apply Forall_cons in Hp as [? _].
  apply Forall_cons in Hr as [? Hr]. apply Forall_cons in Hr as [? Hr].
  apply Forall_cons in Hr as [? _].
  repeat first [apply Forall_nil_2 | apply Forall_cons_2]; done.
Qed.

Lemma Reflector_init_catalog (name : str) :
  reflector_in_catalog name →
  ∃ rf, Reflector.__init__ name = Ok rf ∧ good_reflector rf.
Proof.
  intros Hn. apply elem_of_dom in Hn as [w Hw].
  exists (Reflector.Build w). unfold Reflector.__init__, dict_getitem.
  rewrite Hw. split; [done|]. apply (REFLECTORS_catalog _ _ Hw).
Qed.


(** A valid configuration is accepted, and the machine is well formed with
    its rotors at the window letters. *)
Lemma init_valid (names positions rings : list str)
    (plugboard : option (list (str * str))) (reflector : str) :
  valid_config names positions rings plugboard reflector →
  ∃ m, EnigmaMachine.__init__ names positions rings plugboard reflector = Ok m
       ∧ wf m
       ∧ Forall2 (λ rot p, char_to_idx p = Ok (Rotor.position rot))
           (EnigmaMachine.rotors m) (take 3 positions).
Proof.
  intros (Hlen & Hcat & Hpos & Hring & (Hlp & Hsp & Hru) & Hrf).
  destruct (zip3_three names positions rings Hlen Hpos Hring)
    as (n1 & n2 & n3 & p1 & p2 & p3 & r1 & r2 & r3 & -> & Htake & Hzip & Hlet).
  assert (is_letter p1 = true ∧ is_letter p2 = true ∧ is_letter p3 = true
          ∧ is_letter r1 = true ∧ is_letter r2 = true ∧ is_letter r3 = true)
    as (Hp1 & Hp2 & Hp3 & Hr1 & Hr2 & Hr3).
  { repeat (apply Forall_cons in Hlet as [? Hlet]). done. }
  apply Forall_cons in Hcat as [Hc1 Hcat]. apply Forall_cons in Hcat as [Hc2 Hcat].
  apply Forall_cons in Hcat as [Hc3 _].
  destruct (build_rotors_ok [(n1, p1, r1); (n2, p2, r2); (n3, p3, r3)])
    as (rs & Hrs & Hg & Hps).
  { repeat first [apply Forall_nil_2 | apply Forall_cons_2]; done. }
  assert (NoDup (plug_letters (default [] plugboard))) as Hnd
    by (apply NoDup_plug_letters; done).
  destruct (Plugboard_init_ok _ Hlp Hnd) as (w & Hw & Hinv).
  destruct (Reflector_init_catalog reflector Hrf) as (rf & Hrf' & Hgrf).
  exists (EnigmaMachine.Build rs (Plugboard.Build w) rf).
  unfold EnigmaMachine.__init__.
  rewrite bool_decide_eq_false_2 by (simpl; lia).
  rewrite Hzip, Hrs, bind_ret, Hw, bind_ret, Hrf', bind_ret.
  split; [done|].
  inversion Hps as [|x1 ? l1 ? Hx1 Hps1]; subst.
  inversion Hps1 as [|x2 ? l2 ? Hx2 Hps2]; subst.
  inversion Hps2 as [|x3 ? l3 ? Hx3 Hps3]; subst.
  inversion Hps3; subst. simpl in Hx1, Hx2, Hx3.
  split.
  - split; [done|]. split; [done|]. split.
    + simpl. pose proof (is_letter_upper p1 Hp1) as [? _].
      pose proof (is_letter_upper p2 Hp2) as [? _].
      pose proof (is_letter_upper p3 Hp3) as [? _].
      repeat first [apply Forall_nil_2 | apply Forall_cons_2];
        unfold pos_ok; congruence.
    + split; [|done]. simpl. eapply plug_inv_good, Hinv.
  - rewrite Htake. simpl.
    repeat first [apply Forall2_nil_2 | apply Forall2_cons_2];
      rewrite char_to_idx_is_letter by done; congruence.
Qed.

(** ** C1: encrypting twice from the same windows *)

Lemma reset_loop_restore (rs : list Rotor.t) :
  ∀ (rs1 : list Rotor.t) (ps : list str),
    Forall2 (λ r r', ∃ p, r' = Rotor.set_position r p) rs rs1 →
    Forall2 (λ rot p, char_to_idx p = Ok (Rotor.position rot)) rs
      (take (length rs) ps) →
    EnigmaMachine.reset_loop rs1 ps = Ok rs.
Proof.
  induction rs as [|r rs IH]; intros rs1 ps Hsame Hpos.
  - inversion Hsame; subst. reflexivity.
  - inversion Hsame as [|? r1 ? rs1' [q ->] Hsame']; subst.
    destruct ps as [|p ps]; simpl in Hpos; [inversion Hpos|].
    inversion Hpos as [|? ? ? ? Hp Hpos']; subst.
    simpl. rewrite Hp, bind_ret, (IH _ _ Hsame' Hpos'), bind_ret.
    destruct r. reflexivity.
Qed.

Lemma reset_restore (m m1 : EnigmaMachine.t) (ps : list str) :
  same_key m m1 →
  Forall2 (λ rot p, char_to_idx p = Ok (Rotor.position rot))
    (EnigmaMachine.rotors m) (take (length (EnigmaMachine.rotors m)) ps) →
  EnigmaMachine.reset m1 ps = Ok m.
Proof.
  intros (Hp & Hr & Hs) Hpos. unfold EnigmaMachine.reset.
  rewrite (reset_loop_restore _ _ _ Hs Hpos), bind_ret.
  unfold EnigmaMachine.set_rotors. rewrite Hp, Hr. destruct m. reflexivity.
Qed.

(** X17. The round trip, on the texts that [encrypt] accepts.  For a
    valid configuration, window letters P and a text of Latin-1 characters
    whose letters, once uppercased, are all of A to Z: the machine is
    built; it encrypts the text; reset to P, it encrypts the ciphertext to
    the text in upper case, with the characters that are not letters
    where they were. *)
Theorem encrypt_reset_encrypt (rotor_names positions ring_settings : list str)
    (plugboard : option (list (str * str))) (reflector : str) (text : str) :
  valid_config rotor_names positions ring_settings plugboard reflector →
  latin1 text → letters_AZ text →
  ∃ m m1 ct mr m2,
    EnigmaMachine.__init__ rotor_names positions ring_settings plugboard reflector
    = Ok m
    ∧ EnigmaMachine.encrypt m text = Ok (m1, ct)
    ∧ EnigmaMachine.reset m1 positions = Ok mr
    ∧ EnigmaMachine.encrypt mr ct = Ok (m2, upper text).
Proof.
  intros Hvalid _ Htext.
  destruct (init_valid _ _ _ _ _ Hvalid) as (m & Hm & Hwf & Hpos).
  destruct (encrypt_round m text Hwf Htext) as (m1 & ct & Henc & Hwf1 & Hsame & Hdec).
  exists m, m1, ct, m, m1.
  split; [done|]. split; [done|]. split; [|done].
  apply reset_restore; [done|].
  destruct Hwf as (-> & _). exact Hpos.
Qed.

Lemma encrypt_reset_encrypt_witness :
  let names := [lit "III"; lit "IV"; lit "II"] in
  let positions := [lit "G"; lit "T"; lit "N"] in
  let rings := [lit "C"; lit "H"; lit "F"] in
  let plugboard :=
    Some [(lit "A", lit "Z"); (lit "B", lit "X"); (lit "C", lit "W");
          (lit "D", lit "V"); (lit "E", lit "U"); (lit "F", lit "T");
          (lit "G", lit "S"); (lit "H", lit "R"); (lit "I", lit "Q");
          (lit "J", lit "P")] in
  ∃ m m1 ct mr m2,
    EnigmaMachine.__init__ names positions rings plugboard (lit "B") = Ok m
    ∧ EnigmaMachine.encrypt m (lit "Attack at dawn") = Ok (m1, ct)
    ∧ EnigmaMachine.reset m1 positions = Ok mr
    ∧ EnigmaMachine.encrypt mr ct = Ok (m2, lit "ATTACK AT DAWN").
Proof.
  intros names positions rings plugboard.
  apply (encrypt_reset_encrypt names positions rings plugboard (lit "B")
           (lit "Attack at dawn")).
  - split; [reflexivity|]. split.
    { repeat first [apply Forall_nil_2 | apply Forall_cons_2];
        apply elem_of_dom; eexists; vm_compute; reflexivity. }
    split.
    { split; [simpl; lia|].
      repeat first [apply Forall_nil_2 | apply Forall_cons_2]; reflexivity. }
    split.
    { split; [simpl; lia|].
      repeat first [apply Forall_nil_2 | apply Forall_cons_2]; reflexivity. }
    split.
    { split.
      - repeat first [apply Forall_nil_2 | apply Forall_cons_2];
          split; reflexivity.
      - apply NoDup_plug_letters. apply (bool_decide_unpack _).
        vm_compute. exact I. }
    apply elem_of_dom. eexists. vm_compute. reflexivity.
  - apply (bool_decide_unpack _). vm_compute. exact I.
  - apply (bool_decide_unpack _). vm_compute. exact I.
Defined.

(** ** C2: the double step *)

Lemma encrypt_key (m : EnigmaMachine.t) (k : str) :
  wf m → is_letter k = true →
  ∃ m' o, EnigmaMachine.encrypt m k = Ok (m', o)
          ∧ EnigmaMachine._step_rotors m = Ok m' ∧ wf m'.
Proof.
  intros Hwf Hk. destruct (is_letter_upper k Hk) as [Hx Hu].
  destruct (encrypt_char_involution m (letter_idx k) Hwf Hx)
    as (m' & y & Hy & Hstep & Hwf' & _ & Henc & _).
  exists m', (letter y). unfold EnigmaMachine.encrypt. rewrite Hu.
  unfold letter at 1. rewrite encrypt_loop_cons.
  rewrite isalpha_AZ by (apply in_range_spec; lia).
  fold (letter (letter_idx k)). rewrite Henc. simpl. done.
Qed.

Lemma press_trace_step_trace (keys : list str) :
  ∀ m, wf m → Forall (λ k, is_letter k = true) keys →
       press_trace m keys = step_trace m (length keys).
Proof.
  induction keys as [|k keys IH]; intros m Hwf Hk; [reflexivity|].
  apply Forall_cons in Hk as [Hk Hks].
  destruct (encrypt_key m k Hwf Hk) as (m' & o & Henc & Hstep & Hwf').
  simpl. rewrite Henc, Hstep, !bind_ret. cbv beta iota.
  rewrite (IH m' Hwf' Hks). reflexivity.
Qed.

(** C2, as the code behaves.  From ADU, with notches Q, E, V, four
    keypresses show ADV, AEW, BFX, BFY: the right rotor passes its notch
    at the second press and carries the middle rotor to E, its own notch,
    so that the middle rotor steps again at the third press, with the left
    rotor. *)
Theorem double_step_windows (k1 k2 k3 k4 : str) :
  is_letter k1 = true → is_letter k2 = true →
  is_letter k3 = true → is_letter k4 = true →
  (m ← double_step_machine; press_trace m [k1; k2; k3; k4])
  = Ok [lit "ADV"; lit "AEW"; lit "BFX"; lit "BFY"].
Proof.
  intros H1 H2 H3 H4.
  destruct (init_valid [lit "I"; lit "II"; lit "III"]
              [lit "A"; lit "D"; lit "U"] [lit "A"; lit "A"; lit "A"]
              None (lit "B")) as (m & Hm & Hwf & _).
  { split; [reflexivity|]. split.
    { repeat first [apply Forall_nil_2 | apply Forall_cons_2];
        apply elem_of_dom; eexists; vm_compute; reflexivity. }
    split.
    { split; [simpl; lia|].
      repeat first [apply Forall_nil_2 | apply Forall_cons_2]; reflexivity. }
    split.
    { split; [simpl; lia|].
      repeat first [apply Forall_nil_2 | apply Forall_cons_2]; reflexivity. }
    split.
    { split; [constructor|]. apply NoDup_plug_letters. constructor. }
    apply elem_of_dom. eexists. vm_compute. reflexivity. }
  unfold double_step_machine. rewrite Hm, bind_ret.
  rewrite press_trace_step_trace;
    [|done|repeat first [apply Forall_nil_2 | apply Forall_cons_2]; done].
  assert ((m ← double_step_machine; step_trace m 4)
          = Ok [lit "ADV"; lit "AEW"; lit "BFX"; lit "BFY"]) as Hc
    by (vm_compute; reflexivity).
  unfold double_step_machine in Hc. rewrite Hm, bind_ret in Hc. exact Hc.
Qed.

Lemma double_step_windows_witness :
  (m ← double_step_machine;
   press_trace m [lit "A"; lit "A"; lit "A"; lit "A"])
  = Ok [lit "ADV"; lit "AEW"; lit "BFX"; lit "BFY"].
Proof.
  apply (double_step_windows (lit "A") (lit "A") (lit "A") (lit "A"));
    reflexivity.
Defined.

(** C2 as stated does not hold: the four windows are not ADV, ADW, AEX,
    BFY. *)
Lemma claimed_windows_refuted :
  (m ← double_step_machine;
   press_trace m [lit "A"; lit "A"; lit "A"; lit "A"])
  ≠ Ok [lit "ADV"; lit "ADW"; lit "AEX"; lit "BFY"].
Proof. intros H. vm_compute in H. discriminate H. Qed.

(** C1, at a failing input.  The configuration is valid and the windows
    are three letters; the text "café" ends with the letter U+00E9, whose
    upper case U+00C9 [isalpha] accepts.  The first three letters are
    enciphered, then the subscript of the plugboard table at 136 raises
    [IndexError]: [encrypt] returns no ciphertext, and the round trip that
    the claim describes does not take place. *)
Theorem roundtrip_accented_letter_raises :
  let names := [lit "I"; lit "II"; lit "III"] in
  let AAA := [lit "A"; lit "A"; lit "A"] in
  let text := lit "caf" ++ [233] in
  valid_config names AAA AAA None (lit "B")
  ∧ upper text = lit "CAF" ++ [201]
  ∧ (m ← EnigmaMachine.__init__ names AAA AAA None (lit "B");
     EnigmaMachine.encrypt m text) = Raise IndexError
  ∧ (¬ ∃ m m1 ct mr m2,
       EnigmaMachine.__init__ names AAA AAA None (lit "B") = Ok m
       ∧ EnigmaMachine.encrypt m text = Ok (m1, ct)
       ∧ EnigmaMachine.reset m1 AAA = Ok mr
       ∧ EnigmaMachine.encrypt mr ct = Ok (m2, upper text)).
Proof.
  intros names AAA text.
  assert ((m ← EnigmaMachine.__init__ names AAA AAA None (lit "B");
           EnigmaMachine.encrypt m text) = Raise IndexError)
    as H by (vm_compute; reflexivity).
  split; [|split; [reflexivity|split; [exact H|]]].
  - split; [reflexivity|]. split.
    { repeat first [apply Forall_nil_2 | apply Forall_cons_2];
        apply elem_of_dom; eexists; vm_compute; reflexivity. }
    split.
    { split; [simpl; lia|].
      repeat first [apply Forall_nil_2 | apply Forall_cons_2]; reflexivity. }
    split.
    { split; [simpl; lia|].
      repeat first [apply Forall_nil_2 | apply Forall_cons_2]; reflexivity. }
    split.
    { split; [constructor|]. apply NoDup_plug_letters. constructor. }
    apply elem_of_dom. eexists. vm_compute. reflexivity.
  - intros (m & m1 & ct & mr & m2 & Hm & Henc & _).
    rewrite Hm, bind_ret, Henc in H. discriminate H.
Qed.

(** ** C9: the errors of construction *)

Create HintDb runtime.

Lemma runtime_only_Ok {A} (a : A) : runtime_only (Ok a).
Proof. intros e H. discriminate H. Qed.

Lemma runtime_only_IndexError {A} : runtime_only (@Raise A IndexError).
Proof. intros e H. injection H as <-. reflexivity. Qed.

Lemma runtime_only_TypeError {A} : runtime_only (@Raise A TypeError).
Proof. intros e H. injection H as <-. reflexivity. Qed.


Lemma runtime_only_bind {A B} (m : result A) (f : A → result B) :
  runtime_only m → (∀ a, m = Ok a → runtime_only (f a)) →
  runtime_only (m ≫= f).
Proof.
  intros Hm Hf. destruct m as [a|e]; simpl.
  - apply Hf. reflexivity.
  - intros e' H. injection H as <-. apply Hm. reflexivity.
Qed.

#[local] Hint Resolve runtime_only_Ok runtime_only_IndexError
  runtime_only_TypeError : runtime.

Ltac runtime :=
  repeat first
    [ solve [auto with runtime]
    | apply runtime_only_bind; [|intros ? ?] ].

Lemma runtime_only_getitem {A} (l : list A) (i : Z) : runtime_only (getitem l i).
Proof.
  unfold getitem, norm_index.
  destruct (_ && _); [|destruct (_ && _)]; simpl;
    try destruct (l !! _); auto with runtime.
Qed.
#[local] Hint Resolve runtime_only_getitem : runtime.

Lemma runtime_only_str_getitem (s : str) (i : Z) : runtime_only (str_getitem s i).
Proof. unfold str_getitem. runtime. Qed.
#[local] Hint Resolve runtime_only_str_getitem : runtime.

Lemma runtime_only_char_to_idx (c : str) : runtime_only (char_to_idx c).
Proof.
  unfold char_to_idx, ord. destruct (upper c) as [|? [|? ?]]; simpl;
    auto with runtime.
Qed.
#[local] Hint Resolve runtime_only_char_to_idx : runtime.

Lemma runtime_only_idx_to_char (i : Z) : runtime_only (idx_to_char i).
Proof. unfold idx_to_char. runtime. Qed.
#[local] Hint Resolve runtime_only_idx_to_char : runtime.

Lemma runtime_only_encode (r : Rotor.t) (w : str) (s : Z) :
  runtime_only (Rotor._encode r w s).
Proof. unfold Rotor._encode. runtime. Qed.

Lemma runtime_only_through (f : Rotor.t → Z → result Z) (rs : list Rotor.t) :
  (∀ r s, runtime_only (f r s)) → ∀ s, runtime_only (EnigmaMachine.through f rs s).
Proof.
  intros Hf. induction rs as [|r rs IH]; intros s; simpl; runtime.
Qed.

Lemma runtime_only_through_forward (rs : list Rotor.t) (s : Z) :
  runtime_only (EnigmaMachine.through Rotor.forward rs s).
Proof. apply runtime_only_through. intros. apply runtime_only_encode. Qed.

Lemma runtime_only_through_backward (rs : list Rotor.t) (s : Z) :
  runtime_only (EnigmaMachine.through Rotor.backward rs s).
Proof. apply runtime_only_through. intros. apply runtime_only_encode. Qed.

#[local] Hint Resolve runtime_only_through_forward
  runtime_only_through_backward : runtime.

Lemma runtime_only_reflect (rf : Reflector.t) (s : Z) :
  runtime_only (Reflector.reflect rf s).
Proof. unfold Reflector.reflect. runtime. Qed.

Lemma runtime_only_plug_forward (pb : Plugboard.t) (c : str) :
  runtime_only (Plugboard.forward pb c).
Proof. unfold Plugboard.forward. runtime. Qed.

#[local] Hint Resolve runtime_only_reflect runtime_only_plug_forward : runtime.













(** ** C10: lists shorter than three *)

Lemma zip3_length {A B C} (a : list A) (b : list B) (c : list C) :
  length (EnigmaMachine.zip3 a b c)
  = (length a `min` (length b `min` length c))%nat.
Proof.
  revert b c. induction a as [|x a IH]; intros [|y b] [|z c]; simpl; try lia.
  rewrite IH. lia.
Qed.

Lemma zip3_Forall (names positions rings : list str) :
  Forall rotor_in_catalog names →
  Forall (λ s, is_letter s = true) positions →
  Forall (λ s, is_letter s = true) rings →
  Forall (λ t, rotor_in_catalog t.1.1 ∧ is_letter t.1.2 = true
               ∧ is_letter t.2 = true)
    (EnigmaMachine.zip3 names positions rings).
Proof.
  intros Hn. revert positions rings.
  induction Hn as [|n names Hn _ IH]; intros positions rings Hp Hr; simpl;
    [constructor|].
  destruct Hp as [|p positions Hp Hps]; [constructor|].
  destruct Hr as [|r rings Hr Hrs]; [constructor|].
  constructor; [done|]. apply IH; done.
Qed.

Lemma reset_loop_prefix (rs : list Rotor.t) :
  ∀ ps : list str,
    Forall (λ s, is_letter s = true) ps →
    ∃ rs', EnigmaMachine.reset_loop rs ps = Ok rs'
           ∧ length rs' = length rs
           ∧ ∀ (i : nat) r, rs !! i = Some r →
               rs' !! i = Some (match ps !! i with
                                | Some p => Rotor.set_position r (letter_idx p)
                                | None => r
                                end).
Proof.
  induction rs as [|r rs IH]; intros ps Hps.
  - exists []. destruct ps; simpl; split; try done; split; try done;
      intros i r H; rewrite lookup_nil in H; discriminate H.
  - destruct Hps as [|p ps Hp Hps].
    + exists (r :: rs). simpl. split; [done|]. split; [done|].
      intros i r' H. exact H.
    + destruct (IH ps Hps) as (rs' & Hrs' & Hlen & Hlook).
      exists (Rotor.set_position r (letter_idx p) :: rs'). simpl.
      rewrite char_to_idx_is_letter, bind_ret, Hrs', bind_ret by done.
      split; [done|]. split; [simpl; lia|].
      intros [|i] r' H; simpl in *.
      * injection H as <-. reflexivity.
      * apply Hlook, H.
Qed.

(** C10. With three rotor names and fewer than three window letters or
    ring letters, construction succeeds and the machine has one rotor per
    entry of the shorter list, fewer than three.  A call of [reset] with
    fewer than three letters succeeds too: it sets the leading rotors and
    leaves the others where they are. *)
Theorem short_lists_truncate (rotor_names positions ring_settings : list str)
    (plugboard : option (list (str * str))) (reflector : str)
    (m0 : EnigmaMachine.t) (ps : list str) :
  length rotor_names = 3%nat → Forall rotor_in_catalog rotor_names →
  Forall (λ s, is_letter s = true) positions →
  Forall (λ s, is_letter s = true) ring_settings →
  (length positions < 3 ∨ length ring_settings < 3)%nat →
  valid_pairs (default [] plugboard) → reflector_in_catalog reflector →
  Forall (λ s, is_letter s = true) ps → (length ps < 3)%nat →
  (∃ m, EnigmaMachine.__init__ rotor_names positions ring_settings plugboard
          reflector = Ok m
        ∧ length (EnigmaMachine.rotors m)
          = (length positions `min` length ring_settings)%nat
        ∧ (length (EnigmaMachine.rotors m) < 3)%nat)
  ∧ (∃ m', EnigmaMachine.reset m0 ps = Ok m'
           ∧ EnigmaMachine.plugboard m' = EnigmaMachine.plugboard m0
           ∧ EnigmaMachine.reflector m' = EnigmaMachine.reflector m0
           ∧ length (EnigmaMachine.rotors m') = length (EnigmaMachine.rotors m0)
           ∧ ∀ (i : nat) r, EnigmaMachine.rotors m0 !! i = Some r →
               EnigmaMachine.rotors m' !! i
               = Some (match ps !! i with
                       | Some p => Rotor.set_position r (letter_idx p)
                       | None => r
                       end)).
Proof.
  intros Hlen Hcat Hpos Hring Hshort (Hlp & Hsp & Hru) Hrf Hps _. split.
  - destruct (build_rotors_ok _ (zip3_Forall _ _ _ Hcat Hpos Hring))
      as (rs & Hrs & _ & Hf2).
    destruct (Plugboard_init_ok _ Hlp) as (w & Hw & _);
      [apply NoDup_plug_letters; done|].
    destruct (Reflector_init_catalog reflector Hrf) as (rf & Hrf' & _).
    exists (EnigmaMachine.Build rs (Plugboard.Build w) rf).
    unfold EnigmaMachine.__init__.
    rewrite bool_decide_eq_false_2 by (intros H; apply H, Hlen).
    rewrite Hrs, bind_ret, Hw, bind_ret, Hrf', bind_ret.
    apply Forall2_length in Hf2. rewrite zip3_length in Hf2. simpl.
    split; [done|]. split; lia.
  - destruct (reset_loop_prefix (EnigmaMachine.rotors m0) ps Hps)
      as (rs' & Hrs' & Hl & Hlook).
    exists (EnigmaMachine.set_rotors m0 rs'). unfold EnigmaMachine.reset.
    rewrite Hrs'. done.
Qed.

Lemma short_lists_truncate_witness :
  let names := [lit "I"; lit "II"; lit "III"] in
  (∃ m, EnigmaMachine.__init__ names [lit "A"; lit "B"]
          [lit "A"; lit "A"; lit "A"] None (lit "B") = Ok m
        ∧ length (EnigmaMachine.rotors m) = 2%nat
        ∧ (length (EnigmaMachine.rotors m) < 3)%nat)
  ∧ (∃ m0 m', example_machine = Ok m0
              ∧ EnigmaMachine.reset m0 [lit "K"] = Ok m'
              ∧ map Rotor.position (EnigmaMachine.rotors m') = [10; 0; 0]).
Proof.
  intros names.
  assert (∃ m0, example_machine = Ok m0) as [m0 Hm0]
    by (eexists; vm_compute; reflexivity).
  destruct (short_lists_truncate names [lit "A"; lit "B"]
              [lit "A"; lit "A"; lit "A"] None (lit "B") m0 [lit "K"])
    as [HA (m' & Hreset & _)].
  - reflexivity.
  - repeat first [apply Forall_nil_2 | apply Forall_cons_2];
      apply elem_of_dom; eexists; vm_compute; reflexivity.
  - repeat first [apply Forall_nil_2 | apply Forall_cons_2]; reflexivity.
  - repeat first [apply Forall_nil_2 | apply Forall_cons_2]; reflexivity.
  - left. simpl. lia.
  - split; [apply Forall_nil_2|]. apply NoDup_plug_letters. constructor.
  - apply elem_of_dom. eexists. vm_compute. reflexivity.
  - repeat first [apply Forall_nil_2 | apply Forall_cons_2]; reflexivity.
  - simpl. lia.
  - split; [exact HA|].
    exists m0, m'. split; [exact Hm0|]. split; [exact Hreset|].
    revert Hm0 Hreset. vm_compute. intros Hm0. injection Hm0 as <-.
    intros Hreset. injection Hreset as <-. reflexivity.
Defined.

(** * Further properties of the code *)

Lemma example_machine_wf : ∃ m, example_machine = Ok m ∧ wf m.
Proof.
  destruct (init_valid [lit "I"; lit "II"; lit "III"]
              [lit "A"; lit "A"; lit "A"] [lit "A"; lit "A"; lit "A"]
              None (lit "B")) as (m & Hm & Hwf & _); [|eauto].
  split; [reflexivity|]. split.
  { repeat first [apply Forall_nil_2 | apply Forall_cons_2];
      apply elem_of_dom; eexists; vm_compute; reflexivity. }
  split.
  { split; [simpl; lia|].
    repeat first [apply Forall_nil_2 | apply Forall_cons_2]; reflexivity. }
  split.
  { split; [simpl; lia|].
    repeat first [apply Forall_nil_2 | apply Forall_cons_2]; reflexivity. }
  split.
  { split; [constructor|]. apply NoDup_plug_letters. constructor. }
  apply elem_of_dom. eexists. vm_compute. reflexivity.
Qed.

(** ** A letter never enciphers to itself *)

Lemma encrypt_char_differs (m : EnigmaMachine.t) (x : Z) :
  wf m → 0 <= x < 26 →
  ∃ m' y, 0 <= y < 26 ∧ y ≠ x ∧ wf m'
          ∧ EnigmaMachine._encrypt_char m (letter x) = Ok (m', letter y).
Proof.
  intros Hwf Hx.
  destruct (step_rotors_wf m Hwf) as (m' & Hstep & Hwf' & _).
  pose proof Hwf' as (Hlen & Hg & Hp & Hpb & Hrf).
  destruct (Hpb x Hx) as (a & Ha & Hxa & Hax).
  destruct (signal_path_involution m' a Hg Hrf Ha) as (b & Hb & Hne & Hab & _).
  destruct (Hpb b Hb) as (y & Hy & Hby & Hyb).
  exists m', y. split; [done|]. split.
  - intros ->. rewrite Hxa in Hyb. injection Hyb as Hyb. lia.
  - split; [done|].
    rewrite encrypt_char_unfold, Hstep, bind_ret, Hxa, bind_ret.
    rewrite char_to_idx_letter, bind_ret, Hab, bind_ret by done.
    rewrite idx_to_char_letter, bind_ret, Hby by done. done.
Qed.

Lemma encrypt_loop_pointwise (cs : str) :
  ∀ (m : EnigmaMachine.t) (acc : list str),
    wf m → Forall (λ c, isalpha_cp c = true → in_range 65 90 c = true) cs →
    ∃ m1 ct,
      EnigmaMachine.encrypt_loop m cs acc = Ok (m1, acc ++ map (λ c, [c]) ct)
      ∧ Forall2 enciphered cs ct.
Proof.
  induction cs as [|c cs IH]; intros m acc Hwf Hcs.
  - exists m, []. simpl. rewrite app_nil_r. split; [done|constructor].
  - apply Forall_cons in Hcs as [Hc Hcs]. rewrite encrypt_loop_cons.
    destruct (isalpha_cp c) eqn:Halpha.
    + specialize (Hc eq_refl). apply in_range_spec in Hc.
      destruct (encrypt_char_differs m (c - 65) Hwf) as
        (m' & y & Hy & Hne & Hwf' & Henc); [lia|].
      unfold letter in Henc. replace (65 + (c - 65)) with c in Henc by lia.
      rewrite Henc, bind_ret. cbv beta iota.
      destruct (IH m' (acc ++ [[65 + y]]) Hwf' Hcs) as (m1 & ct & Hl & Hf).
      exists m1, ((65 + y) :: ct).
      split; [rewrite Hl, <- app_assoc; reflexivity|].
      constructor; [|done]. unfold enciphered. rewrite Halpha.
      split; [apply in_range_spec; lia|lia].
    + destruct (IH m (acc ++ [[c]]) Hwf Hcs) as (m1 & ct & Hl & Hf).
      exists m1, (c :: ct).
      split; [rewrite Hl, <- app_assoc; reflexivity|].
      constructor; [|done]. unfold enciphered. rewrite Halpha. done.
Qed.

(** X1. On a text whose letters are A to Z (after uppercasing), a machine
    built from letters returns a ciphertext as long as the uppercased text
    in which every letter is replaced by a capital letter different from
    it and every other character is kept. *)
Theorem encrypt_no_letter_to_itself (m : EnigmaMachine.t) (text : str) :
  wf m → latin1 text → letters_AZ text →
  ∃ m1 ct, EnigmaMachine.encrypt m text = Ok (m1, ct)
           ∧ Forall2 enciphered (upper text) ct.
Proof.
  intros Hwf _ Htext.
  destruct (encrypt_loop_pointwise (upper text) m [] Hwf Htext) as (m1 & ct & Hl & Hf).
  exists m1, ct. unfold EnigmaMachine.encrypt.
  rewrite Hl, bind_ret. cbv beta iota. simpl. rewrite concat_singletons. done.
Qed.

Lemma encrypt_no_letter_to_itself_witness :
  ∃ m m1 ct,
    example_machine = Ok m
    ∧ EnigmaMachine.encrypt m (lit "Attack at dawn") = Ok (m1, ct)
    ∧ Forall2 enciphered (lit "ATTACK AT DAWN") ct.
Proof.
  destruct example_machine_wf as (m & Hm & Hwf).
  destruct (encrypt_no_letter_to_itself m (lit "Attack at dawn") Hwf)
    as (m1 & ct & Henc & Hf).
  - apply (bool_decide_unpack _). vm_compute. exact I.
  - apply (bool_decide_unpack _). vm_compute. exact I.
  - exists m, m1, ct. split; [exact Hm|]. split; [exact Henc|exact Hf].
Defined.

(** ** The key is never changed by encryption *)

Lemma encrypt_loop_same_key (cs : str) :
  ∀ (m m1 : EnigmaMachine.t) (acc out : list str),
    EnigmaMachine.encrypt_loop m cs acc = Ok (m1, out) → same_key m m1.
Proof.
  induction cs as [|c cs IH]; intros m m1 acc out H.
  - injection H as <- _. apply same_key_refl.
  - rewrite encrypt_loop_cons in H. destruct (isalpha_cp c); [|eapply IH, H].
    destruct (EnigmaMachine._encrypt_char m [c]) as [[m' o]|] eqn:Ec;
      [|discriminate H].
    rewrite bind_ret in H. cbv beta iota in H.
    eapply same_key_trans; [eapply encrypt_char_same_key, Ec|eapply IH, H].
Qed.

(** X2. Whatever the machine and the text of Latin-1 characters, a call
    of [encrypt] that returns leaves the plugboard and the reflector as they were and the
    rotors the same up to their positions: names, wirings, inverse tables,
    notches and rings are untouched, and their number is the same. *)
Theorem encrypt_keeps_key (m m1 : EnigmaMachine.t) (text ct : str) :
  latin1 text →
  EnigmaMachine.encrypt m text = Ok (m1, ct) →
  EnigmaMachine.plugboard m1 = EnigmaMachine.plugboard m
  ∧ EnigmaMachine.reflector m1 = EnigmaMachine.reflector m
  ∧ Forall2 (λ r r', Rotor.name r' = Rotor.name r
                     ∧ Rotor.wiring r' = Rotor.wiring r
                     ∧ Rotor.reverse r' = Rotor.reverse r
                     ∧ Rotor.notch r' = Rotor.notch r
                     ∧ Rotor.ring r' = Rotor.ring r)
      (EnigmaMachine.rotors m) (EnigmaMachine.rotors m1).
Proof.
  unfold EnigmaMachine.encrypt. intros _ H.
  destruct (EnigmaMachine.encrypt_loop m (upper text) []) as [[m' out]|] eqn:El;
    [|discriminate H].
  injection H as <- _.
  destruct (encrypt_loop_same_key _ _ _ _ _ El) as (Hp & Hr & Hf).
  split; [done|]. split; [done|].
  eapply Forall2_impl; [exact Hf|]. intros r r' [p ->]. done.
Qed.

Lemma encrypt_keeps_key_witness :
  ∃ m m1 ct,
    example_machine = Ok m
    ∧ EnigmaMachine.encrypt m (lit "HELLO") = Ok (m1, ct)
    ∧ EnigmaMachine.plugboard m1 = EnigmaMachine.plugboard m
    ∧ map Rotor.ring (EnigmaMachine.rotors m1) = map Rotor.ring (EnigmaMachine.rotors m)
    ∧ map Rotor.position (EnigmaMachine.rotors m1) = [0; 0; 5].
Proof.
  assert (∃ m m1 ct, example_machine = Ok m
                     ∧ EnigmaMachine.encrypt m (lit "HELLO") = Ok (m1, ct))
    as (m & m1 & ct & Hm & Henc).
  { do 3 eexists. split; vm_compute; reflexivity. }
  exists m, m1, ct. split; [exact Hm|]. split; [exact Henc|].
  assert (latin1 (lit "HELLO")) as Hl
    by (apply (bool_decide_unpack _); vm_compute; exact I).
  destruct (encrypt_keeps_key m m1 (lit "HELLO") ct Hl Henc) as (Hp & _ & _).
  split; [exact Hp|].
  revert Hm Henc. vm_compute. intros Hm. injection Hm as <-.
  intros Henc. injection Henc as <- _. split; reflexivity.
Defined.

(** ** Texts in pieces, and case *)

(** X3. Encrypting a text of Latin-1 characters in two pieces, the
    second from the state the first left, gives the same state and the
    same output as encrypting it at once, errors included. *)
Theorem encrypt_in_pieces (m : EnigmaMachine.t) (t1 t2 : str) :
  latin1 (t1 ++ t2) →
  EnigmaMachine.encrypt m (t1 ++ t2)
  = ('(m1, o1) ← EnigmaMachine.encrypt m t1;
     '(m2, o2) ← EnigmaMachine.encrypt m1 t2;
     Ok (m2, o1 ++ o2)).
Proof.
  intros _.
  unfold EnigmaMachine.encrypt. rewrite upper_app, encrypt_loop_app.
  destruct (EnigmaMachine.encrypt_loop m (upper t1) []) as [[m1 out1]|];
    [|reflexivity].
  rewrite !bind_ret. cbv beta iota. rewrite encrypt_loop_acc.
  destruct (EnigmaMachine.encrypt_loop m1 (upper t2) []) as [[m2 out2]|];
    [|reflexivity].
  rewrite !bind_ret. cbv beta iota. rewrite concat_app. reflexivity.
Qed.

Lemma encrypt_in_pieces_witness :
  ∃ m, example_machine = Ok m
       ∧ EnigmaMachine.encrypt m (lit "Hello, " ++ lit "world")
         = ('(m1, o1) ← EnigmaMachine.encrypt m (lit "Hello, ");
            '(m2, o2) ← EnigmaMachine.encrypt m1 (lit "world");
            Ok (m2, o1 ++ o2)).
Proof.
  eexists. split; [vm_compute; reflexivity|].
  apply (encrypt_in_pieces _ (lit "Hello, ") (lit "world")).
  apply (bool_decide_unpack _). vm_compute. exact I.
Defined.

Lemma upper_cp_idem (c : Z) : upper (upper_cp c) = upper_cp c.
Proof.
  unfold upper, upper_cp, in_range.
  repeat match goal with
         | |- context [?a <=? ?b] => destruct (Z.leb_spec a b)
         | |- context [?a =? ?b] => destruct (Z.eqb_spec a b)
         end; simpl; try lia; try reflexivity;
  unfold upper_cp, in_range;
  repeat match goal with
         | |- context [?a <=? ?b] => destruct (Z.leb_spec a b)
         | |- context [?a =? ?b] => destruct (Z.eqb_spec a b)
         end; simpl; try lia; reflexivity.
Qed.

Lemma upper_idem (s : str) : upper (upper s) = upper s.
Proof.
  induction s as [|c s IH]; [reflexivity|].
  rewrite upper_cons, upper_app, IH, upper_cp_idem. reflexivity.
Qed.

(** X4. The case of the input does not matter: a text and the same text
    in upper case are encrypted alike, to the same output, state or
    error. *)
Theorem encrypt_ignores_case (m : EnigmaMachine.t) (text : str) :
  latin1 text →
  EnigmaMachine.encrypt m (upper text) = EnigmaMachine.encrypt m text.
Proof. intros _. unfold EnigmaMachine.encrypt. rewrite upper_idem. reflexivity. Qed.

Lemma encrypt_ignores_case_witness :
  ∃ m, example_machine = Ok m
       ∧ EnigmaMachine.encrypt m (lit "HELLO WORLD")
         = EnigmaMachine.encrypt m (lit "Hello World").
Proof.
  destruct example_machine_wf as (m & Hm & _). exists m. split; [exact Hm|].
  apply (encrypt_ignores_case m (lit "Hello World")).
  apply (bool_decide_unpack _). vm_compute. exact I.
Defined.

(** ** Keypresses and the right rotor *)

Lemma count_letters_cons (c : Z) (cs : str) :
  count_letters (c :: cs)
  = if isalpha_cp c then S (count_letters cs) else count_letters cs.
Proof.
  unfold count_letters. destruct (isalpha_cp c) eqn:E.
  - rewrite filter_cons_True by done. reflexivity.
  - rewrite filter_cons_False by (rewrite E; discriminate). reflexivity.
Qed.

Lemma encrypt_loop_right_rotor (cs : str) :
  ∀ (m : EnigmaMachine.t) (acc : list str) (l c r : Rotor.t),
    wf m → Forall (λ c, isalpha_cp c = true → in_range 65 90 c = true) cs →
    EnigmaMachine.rotors m = [l; c; r] →
    ∃ m1 out l1 c1 r1,
      EnigmaMachine.encrypt_loop m cs acc = Ok (m1, out)
      ∧ EnigmaMachine.rotors m1 = [l1; c1; r1]
      ∧ Rotor.position r1
        = (Rotor.position r + Z.of_nat (count_letters cs)) mod 26.
Proof.
  induction cs as [|x cs IH]; intros m acc l c r Hwf Hcs Hrs.
  - exists m, acc, l, c, r. split; [done|]. split; [done|].
    destruct Hwf as (_ & _ & Hp & _). rewrite Hrs in Hp.
    apply Forall_cons in Hp as [_ Hp]. apply Forall_cons in Hp as [_ Hp].
    apply Forall_cons in Hp as [Hp _]. unfold pos_ok in Hp.
    simpl. rewrite Z.add_0_r, Z.mod_small; done.
  - apply Forall_cons in Hcs as [Hx Hcs].
    rewrite encrypt_loop_cons, count_letters_cons.
    destruct (isalpha_cp x) eqn:Halpha; [|apply (IH m _ l c r); done].
    specialize (Hx eq_refl). apply in_range_spec in Hx.
    destruct (encrypt_char_involution m (x - 65) Hwf) as
      (m' & y & Hy & Hstep & Hwf' & _ & Henc & _); [lia|].
    unfold letter in Henc. replace (65 + (x - 65)) with x in Henc by lia.
    rewrite Henc, bind_ret. cbv beta iota.
    pose proof Hwf as (_ & _ & Hp & _). rewrite Hrs in Hp.
    apply Forall_cons in Hp as [_ Hp]. apply Forall_cons in Hp as [Hpc Hp].
    apply Forall_cons in Hp as [Hpr _].
    rewrite (step_rotors_rule m l c r Hrs Hpc Hpr) in Hstep.
    injection Hstep as <-.
    assert (∃ l' c', step_spec l c r = [l'; c'; advance r]) as (l' & c' & Hspec).
    { unfold step_spec. destruct (at_notch c); [|destruct (at_notch r)]; eauto. }
    destruct (IH _ (acc ++ [[65 + y]]) l' c' (advance r) Hwf' Hcs)
      as (m1 & out & l1 & c1 & r1 & Hl & Hrs1 & Hpos); [simpl; exact Hspec|].
    exists m1, out, l1, c1, r1. split; [done|]. split; [done|].
    rewrite Hpos. unfold advance. simpl Rotor.position.
    rewrite Zplus_mod_idemp_l. f_equal. lia.
Qed.

(** X5. The right rotor advances once for every letter of the text and
    for nothing else: after [encrypt] its position is the position before
    plus the number of alphabetic characters, modulo 26. *)
Theorem right_rotor_counts_letters (m : EnigmaMachine.t) (text : str)
    (l c r : Rotor.t) :
  wf m → latin1 text → letters_AZ text →
  EnigmaMachine.rotors m = [l; c; r] →
  ∃ m1 ct l1 c1 r1,
    EnigmaMachine.encrypt m text = Ok (m1, ct)
    ∧ EnigmaMachine.rotors m1 = [l1; c1; r1]
    ∧ Rotor.position r1
      = (Rotor.position r + Z.of_nat (count_letters (upper text))) mod 26.
Proof.
  intros Hwf _ Htext Hrs.
  destruct (encrypt_loop_right_rotor (upper text) m [] l c r Hwf Htext Hrs)
    as (m1 & out & l1 & c1 & r1 & Hl & Hrs1 & Hpos).
  exists m1, (concat out), l1, c1, r1. unfold EnigmaMachine.encrypt.
  rewrite Hl. done.
Qed.

Lemma right_rotor_counts_letters_witness :
  ∃ m m1 ct l1 c1 r1,
    example_machine = Ok m
    ∧ EnigmaMachine.encrypt m (lit "ab, cd!") = Ok (m1, ct)
    ∧ EnigmaMachine.rotors m1 = [l1; c1; r1]
    ∧ Rotor.position r1 = 4.
Proof.
  destruct example_machine_wf as (m & Hm & Hwf).
  assert (∃ l c r, EnigmaMachine.rotors m = [l; c; r] ∧ Rotor.position r = 0)
    as (l & c & r & Hrs & Hr).
  { revert Hm. vm_compute. intros Hm. injection Hm as <-. eauto. }
  destruct (right_rotor_counts_letters m (lit "ab, cd!") l c r Hwf)
    as (m1 & ct & l1 & c1 & r1 & Henc & Hrs1 & Hpos).
  - apply (bool_decide_unpack _). vm_compute. exact I.
  - apply (bool_decide_unpack _). vm_compute. exact I.
  - exact Hrs.
  - exists m, m1, ct, l1, c1, r1. split; [exact Hm|]. split; [exact Henc|].
    split; [exact Hrs1|]. rewrite Hpos, Hr. vm_compute. reflexivity.
Defined.

(** ** A machine without its three rotors *)

Lemma step_rotors_not_three (m : EnigmaMachine.t) :
  length (EnigmaMachine.rotors m) ≠ 3%nat →
  EnigmaMachine._step_rotors m = Raise ValueError.
Proof.
  unfold EnigmaMachine._step_rotors. intros H.
  destruct (EnigmaMachine.rotors m) as [|l [|c [|r [|? ?]]]]; try reflexivity.
  exfalso. apply H. reflexivity.
Qed.

Lemma encrypt_loop_not_three (cs : str) :
  ∀ (m : EnigmaMachine.t) (acc : list str),
    length (EnigmaMachine.rotors m) ≠ 3%nat →
    Exists (λ c, isalpha_cp c = true) cs →
    EnigmaMachine.encrypt_loop m cs acc = Raise ValueError.
Proof.
  induction cs as [|c cs IH]; intros m acc Hlen Hex.
  - apply Exists_nil in Hex. done.
  - rewrite encrypt_loop_cons. destruct (isalpha_cp c) eqn:Halpha.
    + unfold EnigmaMachine._encrypt_char.
      rewrite (step_rotors_not_three m Hlen). reflexivity.
    + apply Exists_cons in Hex as [Hex|Hex]; [congruence|]. apply IH; done.
Qed.

(** X6. A machine that does not hold exactly three rotors (as a
    construction with short lists leaves it) encrypts no letter: on any
    text of Latin-1 characters with an alphabetic character [encrypt]
    raises [ValueError]. *)
Theorem encrypt_without_three_rotors (m : EnigmaMachine.t) (text : str) :
  length (EnigmaMachine.rotors m) ≠ 3%nat →
  latin1 text →
  Exists (λ c, isalpha_cp c = true) (upper text) →
  EnigmaMachine.encrypt m text = Raise ValueError.
Proof.
  intros Hlen _ Hex. unfold EnigmaMachine.encrypt.
  rewrite (encrypt_loop_not_three _ m [] Hlen Hex). reflexivity.
Qed.

Lemma encrypt_without_three_rotors_witness :
  ∃ m, EnigmaMachine.__init__ [lit "I"; lit "II"; lit "III"]
         [lit "A"; lit "A"] [lit "A"; lit "A"; lit "A"] None (lit "B") = Ok m
       ∧ EnigmaMachine.encrypt m (lit "12 a") = Raise ValueError.
Proof.
  eexists. split; [vm_compute; reflexivity|].
  apply encrypt_without_three_rotors.
  - vm_compute. discriminate.
  - apply (bool_decide_unpack _). vm_compute. exact I.
  - apply (bool_decide_unpack _). vm_compute. exact I.
Defined.

(** ** Reset *)

Lemma Rotor_init_same_key (n p p' r : str) (rot rot' : Rotor.t) :
  Rotor.__init__ n p r = Ok rot → Rotor.__init__ n p' r = Ok rot' →
  ∃ q, rot' = Rotor.set_position rot q.
Proof.
  unfold Rotor.__init__. intros H H'.
  destruct (dict_getitem ROTOR_WIRINGS n) as [[w nt]|]; [|discriminate H].
  rewrite bind_ret in H, H'. cbv beta iota in H, H'.
  destruct (Rotor._invert w) as [rev|]; [|discriminate H].
  rewrite bind_ret in H, H'.
  destruct (char_to_idx p) as [x|]; [|discriminate H].
  destruct (char_to_idx p') as [x'|]; [|discriminate H'].
  rewrite bind_ret in H, H'.
  destruct (char_to_idx r) as [y|]; [|discriminate H].
  rewrite bind_ret in H, H'. injection H as <-. injection H' as <-.
  exists x'. reflexivity.
Qed.

Lemma build_rotors_same_key (names : list str) :
  ∀ (ps ps' rings : list str) (rs rs' : list Rotor.t),
    (length names <= length ps)%nat → (length names <= length ps')%nat →
    EnigmaMachine.build_rotors (EnigmaMachine.zip3 names ps rings) = Ok rs →
    EnigmaMachine.build_rotors (EnigmaMachine.zip3 names ps' rings) = Ok rs' →
    Forall2 (λ r r', ∃ q, r' = Rotor.set_position r q) rs rs'.
Proof.
  induction names as [|n names IH]; intros ps ps' rings rs rs' Hl Hl' H H'.
  - injection H as <-. injection H' as <-. constructor.
  - destruct ps as [|p ps]; [simpl in Hl; lia|].
    destruct ps' as [|p' ps']; [simpl in Hl'; lia|].
    destruct rings as [|r rings].
    { injection H as <-. injection H' as <-. constructor. }
    simpl in H, H'.
    destruct (Rotor.__init__ n p r) as [rot|] eqn:E; [|discriminate H].
    destruct (Rotor.__init__ n p' r) as [rot'|] eqn:E'; [|discriminate H'].
    rewrite bind_ret in H, H'.
    destruct (EnigmaMachine.build_rotors (EnigmaMachine.zip3 names ps rings))
      as [xs|] eqn:Ex; [|discriminate H].
    destruct (EnigmaMachine.build_rotors (EnigmaMachine.zip3 names ps' rings))
      as [xs'|] eqn:Ex'; [|discriminate H'].
    injection H as <-. injection H' as <-.
    constructor.
    + eapply Rotor_init_same_key; eassumption.
    + eapply (IH ps ps' rings); simpl in Hl, Hl'; try lia; done.
Qed.

Lemma init_same_key (names ps ps' rings : list str)
    (plugboard : option (list (str * str))) (reflector : str)
    (m m' : EnigmaMachine.t) :
  (length names <= length ps)%nat → (length names <= length ps')%nat →
  EnigmaMachine.__init__ names ps rings plugboard reflector = Ok m →
  EnigmaMachine.__init__ names ps' rings plugboard reflector = Ok m' →
  same_key m m'.
Proof.
  unfold EnigmaMachine.__init__. intros Hl Hl' H H'.
  destruct (bool_decide (length names ≠ 3%nat)); [discriminate H|].
  destruct (EnigmaMachine.build_rotors (EnigmaMachine.zip3 names ps rings))
    as [rs|] eqn:E; [|discriminate H].
  destruct (EnigmaMachine.build_rotors (EnigmaMachine.zip3 names ps' rings))
    as [rs'|] eqn:E'; [|discriminate H'].
  rewrite bind_ret in H, H'.
  destruct (Plugboard.__init__ _) as [pb|]; [|discriminate H].
  rewrite bind_ret in H, H'.
  destruct (Reflector.__init__ reflector) as [rf|]; [|discriminate H].
  injection H as <-. injection H' as <-.
  split; [done|]. split; [done|]. simpl.
  exact (build_rotors_same_key names ps ps' rings rs rs' Hl Hl' E E').
Qed.

(** X7. Resetting resynchronises.  Take a valid configuration with
    window letters P, and the same configuration started at other window
    letters P'.  After the second machine has encrypted any text of
    letters, [reset(P)] makes it the very machine that construction at P
    gives: what went before leaves no trace. *)
Theorem reset_resynchronises (rotor_names P P' ring_settings : list str)
    (plugboard : option (list (str * str))) (reflector : str) (text : str) :
  valid_config rotor_names P ring_settings plugboard reflector →
  three_letters P' → latin1 text → letters_AZ text →
  ∃ m m' m1 ct,
    EnigmaMachine.__init__ rotor_names P ring_settings plugboard reflector = Ok m
    ∧ EnigmaMachine.__init__ rotor_names P' ring_settings plugboard reflector
      = Ok m'
    ∧ EnigmaMachine.encrypt m' text = Ok (m1, ct)
    ∧ EnigmaMachine.reset m1 P = Ok m.
Proof.
  intros Hvalid HP' _ Htext.
  pose proof Hvalid as (Hlen & Hcat & HP & Hring & Hpairs & Hrf).
  destruct (init_valid _ _ _ _ _ Hvalid) as (m & Hm & Hwf & Hpos).
  destruct (init_valid rotor_names P' ring_settings plugboard reflector)
    as (m' & Hm' & Hwf' & _); [done|].
  destruct (encrypt_round m' text Hwf' Htext) as (m1 & ct & Henc & _ & Hsame & _).
  exists m, m', m1, ct. split; [done|]. split; [done|]. split; [done|].
  apply reset_restore.
  - eapply same_key_trans; [|exact Hsame].
    destruct HP as [HP _]. destruct HP' as [HP' _].
    eapply (init_same_key rotor_names P P'); try eassumption; lia.
  - destruct Hwf as (-> & _). exact Hpos.
Qed.

Lemma reset_resynchronises_witness :
  let names := [lit "I"; lit "II"; lit "III"] in
  let rings := [lit "A"; lit "A"; lit "A"] in
  ∃ m m' m1 ct,
    EnigmaMachine.__init__ names [lit "D"; lit "E"; lit "F"] rings None (lit "B")
    = Ok m
    ∧ EnigmaMachine.__init__ names [lit "X"; lit "Y"; lit "Z"] rings None (lit "B")
      = Ok m'
    ∧ EnigmaMachine.encrypt m' (lit "THE QUICK BROWN FOX") = Ok (m1, ct)
    ∧ EnigmaMachine.reset m1 [lit "D"; lit "E"; lit "F"] = Ok m.
Proof.
  intros names rings.
  apply (reset_resynchronises names [lit "D"; lit "E"; lit "F"]
           [lit "X"; lit "Y"; lit "Z"] rings None (lit "B")
           (lit "THE QUICK BROWN FOX")).
  - split; [reflexivity|]. split.
    { repeat first [apply Forall_nil_2 | apply Forall_cons_2];
        apply elem_of_dom; eexists; vm_compute; reflexivity. }
    split.
    { split; [simpl; lia|].
      repeat first [apply Forall_nil_2 | apply Forall_cons_2]; reflexivity. }
    split.
    { split; [simpl; lia|].
      repeat first [apply Forall_nil_2 | apply Forall_cons_2]; reflexivity. }
    split.
    { split; [constructor|]. apply NoDup_plug_letters. constructor. }
    apply elem_of_dom. eexists. vm_compute. reflexivity.
  - split; [simpl; lia|].
    repeat first [apply Forall_nil_2 | apply Forall_cons_2]; reflexivity.
  - apply (bool_decide_unpack _). vm_compute. exact I.
  - apply (bool_decide_unpack _). vm_compute. exact I.
Defined.

(** X8. On a machine of three rotors, [reset] with three letters or more
    puts the first three, in upper case, in the windows; letters beyond
    the third are ignored, and nothing else of the machine changes. *)
Theorem reset_sets_windows (m : EnigmaMachine.t) (ps : list str) :
  length (EnigmaMachine.rotors m) = 3%nat → three_letters ps →
  ∃ m', EnigmaMachine.reset m ps = Ok m'
        ∧ windows m' = concat (map upper (take 3 ps))
        ∧ same_key m m'.
Proof.
  intros Hlen [Hl Hps].
  destruct (EnigmaMachine.rotors m) as [|r1 [|r2 [|r3 [|? ?]]]] eqn:Hrs;
    try discriminate Hlen.
  destruct ps as [|p1 [|p2 [|p3 rest]]]; simpl in Hl; try lia.
  apply Forall_cons in Hps as [H1 Hps]. apply Forall_cons in Hps as [H2 Hps].
  apply Forall_cons in Hps as [H3 _].
  eexists. unfold EnigmaMachine.reset. rewrite Hrs. simpl EnigmaMachine.reset_loop.
  rewrite !char_to_idx_is_letter by done. rewrite !bind_ret.
  split; [reflexivity|]. split.
  - unfold windows. simpl.
    destruct (is_letter_upper p1 H1) as [_ ->].
    destruct (is_letter_upper p2 H2) as [_ ->].
    destruct (is_letter_upper p3 H3) as [_ ->]. reflexivity.
  - split; [done|]. split; [done|]. simpl. rewrite Hrs.
    repeat first [apply Forall2_nil_2 | apply Forall2_cons_2]; eauto.
Qed.

Lemma reset_sets_windows_witness :
  ∃ m m', example_machine = Ok m
          ∧ EnigmaMachine.reset m [lit "q"; lit "E"; lit "v"; lit "Z"] = Ok m'
          ∧ windows m' = lit "QEV".
Proof.
  destruct example_machine_wf as (m & Hm & Hwf).
  destruct (reset_sets_windows m [lit "q"; lit "E"; lit "v"; lit "Z"])
    as (m' & Hreset & Hw & _).
  - apply Hwf.
  - split; [simpl; lia|].
    repeat first [apply Forall_nil_2 | apply Forall_cons_2]; reflexivity.
  - exists m, m'. split; [exact Hm|]. split; [exact Hreset|]. exact Hw.
Defined.

(** ** Rotors, reflector and the index utilities *)

Lemma encode_any (self : Rotor.t) (w r : str) (s : Z) :
  check_inverse w r = true →
  ∃ t, 0 <= t < 26
       ∧ Rotor._encode self w s = Ok t
       ∧ Rotor._encode self w (s mod 26) = Ok t.
Proof.
  intros Hwr. set (offset := Rotor.position self - Rotor.ring self).
  assert (0 <= (s + offset) mod 26 < 26) as Hk by (apply Z.mod_pos_bound; lia).
  destruct (check_inverse_spec w r _ Hwr Hk) as (j & Hj & Hw & _).
  exists ((j - offset) mod 26).
  split; [apply Z.mod_pos_bound; lia|].
  rewrite !encode_tbl. fold offset. rewrite Zplus_mod_idemp_l, Hw. done.
Qed.

(** X9. A rotor of the catalog, at any position and ring, takes any
    integer as a signal: [forward] and [backward] return an index of
    0..25 that depends on the signal modulo 26 only. *)
Theorem rotor_accepts_any_signal (name w n rev : str) (p r s : Z) :
  ROTOR_WIRINGS !! name = Some (w, n) →
  Rotor._invert w = Ok rev →
  let self := Rotor.Build name w rev n p r in
  (∃ t, 0 <= t < 26 ∧ Rotor.forward self s = Ok t
        ∧ Rotor.forward self (s mod 26) = Ok t)
  ∧ (∃ t, 0 <= t < 26 ∧ Rotor.backward self s = Ok t
          ∧ Rotor.backward self (s mod 26) = Ok t).
Proof.
  intros Hc Hi self.
  pose proof (ROTOR_WIRINGS_catalog _ _ _ Hc) as (rev' & _ & Hi' & Hck & _).
  rewrite Hi in Hi'. injection Hi' as <-.
  apply andb_true_iff in Hck as [H1 H2].
  split; [exact (encode_any self w rev s H1)|exact (encode_any self rev w s H2)].
Qed.

Lemma rotor_accepts_any_signal_witness :
  let self := Rotor.Build (lit "IV") (lit "ESOVPZJAYQUIRHXLNFTGKDCMWB")
                (lit "HZWVARTNLGUPXQCEJMBSKDYOIF") (lit "J") 11 (-4) in
  (∃ t, 0 <= t < 26 ∧ Rotor.forward self (-1000) = Ok t
        ∧ Rotor.forward self (-1000 mod 26) = Ok t)
  ∧ (∃ t, 0 <= t < 26 ∧ Rotor.backward self (-1000) = Ok t
          ∧ Rotor.backward self (-1000 mod 26) = Ok t).
Proof.
  apply (rotor_accepts_any_signal (lit "IV") _ (lit "J") _ 11 (-4) (-1000));
    vm_compute; reflexivity.
Defined.

(** X10. For a rotor of the catalog at any position and ring,
    [forward(backward(i))] is [i] for every index of 0..25, and [forward]
    sends different indices to different indices. *)
Theorem rotor_forward_backward (name w n rev : str) (p r i i' : Z) :
  ROTOR_WIRINGS !! name = Some (w, n) →
  Rotor._invert w = Ok rev →
  0 <= i < 26 → 0 <= i' < 26 →
  let self := Rotor.Build name w rev n p r in
  (∃ j, 0 <= j < 26 ∧ Rotor.backward self i = Ok j ∧ Rotor.forward self j = Ok i)
  ∧ (Rotor.forward self i = Rotor.forward self i' → i = i').
Proof.
  intros Hc Hi Hr Hr' self.
  pose proof (ROTOR_WIRINGS_catalog _ _ _ Hc) as (rev' & _ & Hi' & Hck & _).
  rewrite Hi in Hi'. injection Hi' as <-.
  split; [exact (good_rotor_backward self i Hck Hr)|].
  destruct (good_rotor_forward self i Hck Hr) as (j & _ & Hf & Hb).
  destruct (good_rotor_forward self i' Hck Hr') as (j' & _ & Hf' & Hb').
  intros Heq. rewrite Hf, Hf' in Heq. injection Heq as <-.
  rewrite Hb in Hb'. congruence.
Qed.

Lemma rotor_forward_backward_witness :
  let self := Rotor.Build (lit "V") (lit "VZBRGITYUPSDNHLXAWMJQOFECK")
                (lit "QCYLXWENFTZOSMVJUDKGIARPHB") (lit "Z") 7 2 in
  (∃ j, 0 <= j < 26 ∧ Rotor.backward self 3 = Ok j ∧ Rotor.forward self j = Ok 3)
  ∧ (Rotor.forward self 3 = Rotor.forward self 9 → 3 = 9).
Proof.
  apply (rotor_forward_backward (lit "V") _ (lit "Z") _ 7 2 3 9);
    [vm_compute; reflexivity | vm_compute; reflexivity | lia | lia].
Defined.

(** X11. [idx_to_char] takes any integer, and [char_to_idx] gives back
    its residue modulo 26; in the other direction a letter of either case
    comes back in upper case. *)
Theorem index_letter_round_trip (i : Z) (s : str) :
  is_letter s = true →
  (c ← idx_to_char i; char_to_idx c) = Ok (i mod 26)
  ∧ (k ← char_to_idx s; idx_to_char k) = Ok (upper s).
Proof.
  intros Hs.
  assert (0 <= i mod 26 < 26) as Hi by (apply Z.mod_pos_bound; lia).
  split.
  - unfold idx_to_char. rewrite ALPHABET_getitem, bind_ret by done.
    apply char_to_idx_letter, Hi.
  - destruct (is_letter_upper s Hs) as [Hk ->].
    rewrite char_to_idx_is_letter, bind_ret by done.
    apply idx_to_char_letter, Hk.
Qed.

Lemma index_letter_round_trip_witness :
  (c ← idx_to_char (-1); char_to_idx c) = Ok 25
  ∧ (k ← char_to_idx (lit "q"); idx_to_char k) = Ok (lit "Q").
Proof. apply (index_letter_round_trip (-1) (lit "q")). reflexivity. Defined.

(** X12. A rotor of the catalog cannot be built with a window or ring
    argument that is not one character (the empty string, two letters):
    the constructor raises [TypeError]. *)
Theorem rotor_init_not_one_character (name position ring : str) :
  rotor_in_catalog name →
  length position ≠ 1%nat ∨ length ring ≠ 1%nat →
  Rotor.__init__ name position ring = Raise TypeError.
Proof.
  intros Hn Hbad. apply elem_of_dom in Hn as [[w n] Hw].
  destruct (ROTOR_WIRINGS_catalog _ _ _ Hw) as (rev & j & Hi & _).
  unfold Rotor.__init__, dict_getitem. rewrite Hw, bind_ret. cbv beta iota.
  rewrite Hi, bind_ret.
  destruct (char_to_idx_TypeError position) as [[k Hk]| ->]; [|reflexivity].
  rewrite Hk, bind_ret.
  destruct Hbad as [Hbad|Hbad].
  - rewrite (char_to_idx_not_one _ Hbad) in Hk. discriminate Hk.
  - rewrite (char_to_idx_not_one _ Hbad). reflexivity.
Qed.

Lemma rotor_init_not_one_character_witness :
  Rotor.__init__ (lit "II") (lit "AB") (lit "A") = Raise TypeError.
Proof.
  apply rotor_init_not_one_character.
  - apply elem_of_dom. eexists. vm_compute. reflexivity.
  - left. simpl. lia.
Defined.

Lemma REFLECTORS_length (name w : str) :
  REFLECTORS !! name = Some w → length w = 26%nat.
Proof.
  intros H. apply elem_of_list_to_map_2 in H.
  repeat (apply elem_of_cons in H as [H|H]; [injection H as -> ->; reflexivity|]).
  apply elem_of_nil in H. destruct H.
Qed.

Lemma norm_index_negative (n : nat) (i : Z) :
  - Z.of_nat n <= i < 0 → norm_index n i = Ok (Z.to_nat (Z.of_nat n + i)).
Proof.
  intros Hi. unfold norm_index.
  destruct (Z.leb_spec 0 i); [lia|]. simpl.
  destruct (Z.leb_spec (- Z.of_nat n) i); [|lia].
  destruct (Z.ltb_spec i 0); [reflexivity|lia].
Qed.

Lemma norm_index_outside (n : nat) (i : Z) :
  i < - Z.of_nat n ∨ Z.of_nat n <= i → norm_index n i = Raise IndexError.
Proof.
  intros Hi. unfold norm_index.
  destruct (Z.leb_spec 0 i); destruct (Z.ltb_spec i (Z.of_nat n)); simpl;
    try lia;
    destruct (Z.leb_spec (- Z.of_nat n) i); destruct (Z.ltb_spec i 0); simpl;
    try lia; reflexivity.
Qed.

(** X13. The reflector does not reduce its signal: on a reflector of the
    catalog a signal of -26..-1 is read from the end of the table, as the
    signal plus 26, and a signal below -26 or above 25 raises
    [IndexError]. *)
Theorem reflector_signal_bounds (name w : str) (s : Z) :
  REFLECTORS !! name = Some w →
  let self := Reflector.Build w in
  (-26 <= s < 0 → Reflector.reflect self s = Reflector.reflect self (s + 26))
  ∧ (s < -26 ∨ 26 <= s → Reflector.reflect self s = Raise IndexError).
Proof.
  intros Hw self. pose proof (REFLECTORS_length _ _ Hw) as Hlen.
  unfold Reflector.reflect, str_getitem, getitem. simpl. rewrite Hlen. split.
  - intros Hs. rewrite norm_index_negative by (simpl; lia).
    rewrite norm_index_nonneg by (simpl; lia).
    replace (Z.to_nat (Z.of_nat 26 + s)) with (Z.to_nat (s + 26)) by lia.
    reflexivity.
  - intros Hs. rewrite norm_index_outside by (simpl; lia). reflexivity.
Qed.

Lemma reflector_signal_bounds_witness :
  let self := Reflector.Build (lit "YRUHQSLDPXNGOKMIEBFZCWVJAT") in
  Reflector.reflect self (-1) = Reflector.reflect self 25
  ∧ Reflector.reflect self 26 = Raise IndexError.
Proof.
  intros self.
  destruct (reflector_signal_bounds (lit "B") (lit "YRUHQSLDPXNGOKMIEBFZCWVJAT") (-1))
    as [H1 _]; [vm_compute; reflexivity|].
  destruct (reflector_signal_bounds (lit "B") (lit "YRUHQSLDPXNGOKMIEBFZCWVJAT") 26)
    as [_ H2]; [vm_compute; reflexivity|].
  split; [apply H1; lia|apply H2; lia].
Defined.

(** X14. Stepping a rotor [n] times from a position of 0..25 puts it at
    the position plus [n], modulo 26, and changes nothing else; after 26
    steps the rotor is as it was. *)
Theorem rotor_step_wraps (r : Rotor.t) (n : nat) :
  pos_ok r →
  Nat.iter n Rotor.step r
  = Rotor.set_position r ((Rotor.position r + Z.of_nat n) mod 26)
  ∧ Nat.iter 26 Rotor.step r = r.
Proof.
  intros Hr. unfold pos_ok in Hr.
  assert (∀ k, Nat.iter k Rotor.step r
               = Rotor.set_position r ((Rotor.position r + Z.of_nat k) mod 26))
    as Hiter.
  { induction k as [|k IH].
    - simpl. rewrite Z.add_0_r, Z.mod_small by done. destruct r. reflexivity.
    - simpl. rewrite IH. unfold Rotor.step, Rotor.set_position. simpl.
      rewrite Zplus_mod_idemp_l. do 2 f_equal. lia. }
  split; [apply Hiter|]. rewrite Hiter.
  replace (Rotor.position r + Z.of_nat 26) with (Rotor.position r + 1 * 26) by lia.
  rewrite Z.mod_add, Z.mod_small by lia. destruct r. reflexivity.
Qed.

Lemma rotor_step_wraps_witness :
  let r := Rotor.Build (lit "I") (lit "EKMFLGDQVZNTOWYHXUSPAIBRCJ")
             (lit "UWYGADFPVZBECKMTHXSLRINQOJ") (lit "Q") 24 0 in
  Nat.iter 5 Rotor.step r = Rotor.set_position r ((24 + 5) mod 26)
  ∧ Nat.iter 26 Rotor.step r = r.
Proof.
  intros r. apply (rotor_step_wraps r 5). unfold pos_ok. simpl. lia.
Defined.

(** ** The plugboard beyond its intended use *)

Lemma plug_letters_in_alphabet (pairs : list (str * str)) (x : str) :
  letter_pairs pairs → x ∈ plug_letters pairs → x ∈ map letter range26.
Proof.
  assert (∀ s, is_letter s = true → upper s ∈ map letter range26) as Hin.
  { intros s Hs. destruct (is_letter_upper s Hs) as [Hr ->].
    apply list_elem_of_In, in_map, range26_complete, Hr. }
  induction 1 as [|[a b] rest [Ha Hb] _ IH]; simpl.
  - intros H. apply elem_of_nil in H. destruct H.
  - simpl in Ha, Hb. intros H.
    apply elem_of_cons in H as [->|H]; [apply Hin, Ha|].
    apply elem_of_cons in H as [->|H]; [apply Hin, Hb|apply IH, H].
Qed.

Lemma plug_letters_length (pairs : list (str * str)) :
  length (plug_letters pairs) = (2 * length pairs)%nat.
Proof.
  induction pairs as [|[a b] rest IH]; simpl; [reflexivity|]. rewrite IH. lia.
Qed.

(** X15. The 26 letters allow 13 pairs at most: a list of more than 13
    pairs of letters uses some letter twice, and the plugboard
    constructor raises [ValueError]. *)
Theorem plugboard_more_than_13_pairs (pairs : list (str * str)) :
  letter_pairs pairs → (13 < length pairs)%nat →
  Plugboard.__init__ (Some pairs) = Raise ValueError.
Proof.
  intros Hl Hlen. apply Plugboard_init_raise; [done|]. intros Hnd.
  assert (plug_letters pairs ⊆+ map letter range26) as Hsub.
  { apply NoDup_submseteq; [done|]. intros x. apply plug_letters_in_alphabet, Hl. }
  apply submseteq_length in Hsub.
  rewrite plug_letters_length in Hsub. simpl in Hsub. lia.
Qed.

Lemma plugboard_more_than_13_pairs_witness :
  Plugboard.__init__
    (Some [(lit "A", lit "B"); (lit "C", lit "D"); (lit "E", lit "F");
           (lit "G", lit "H"); (lit "I", lit "J"); (lit "K", lit "L");
           (lit "M", lit "N"); (lit "O", lit "P"); (lit "Q", lit "R");
           (lit "S", lit "T"); (lit "U", lit "V"); (lit "W", lit "X");
           (lit "Y", lit "Z"); (lit "a", lit "y")])
  = Raise ValueError.
Proof.
  apply plugboard_more_than_13_pairs.
  - repeat first [apply Forall_nil_2 | apply Forall_cons_2]; split; reflexivity.
  - simpl. lia.
Defined.

Lemma setitem_negative {A} (l : list A) (i : Z) (x : A) :
  - Z.of_nat (length l) <= i < 0 →
  setitem l i x = Ok (<[Z.to_nat (Z.of_nat (length l) + i) := x]> l).
Proof. intros Hi. unfold setitem. rewrite norm_index_negative by done. done. Qed.

Lemma getitem_negative {A} (l : list A) (i : Z) (x : A) :
  - Z.of_nat (length l) <= i < 0 →
  l !! Z.to_nat (Z.of_nat (length l) + i) = Some x → getitem l i = Ok x.
Proof.
  intros Hi Hl. unfold getitem. rewrite norm_index_negative by done.
  simpl. rewrite Hl. reflexivity.
Qed.

Lemma isalpha_cp_39_64 (a : Z) : 39 <= a <= 64 → isalpha_cp a = false.
Proof.
  intros Ha. unfold isalpha_cp, in_range.
  repeat match goal with
         | |- context [?x <=? ?y] => destruct (Z.leb_spec x y)
         | |- context [?x =? ?y] => destruct (Z.eqb_spec x y)
         end; simpl; try lia; reflexivity.
Qed.

(** X16. The plugboard constructor does not check that a pair is made
    of letters.  A pair of two different characters of U+0027..U+0040
    (digits, punctuation) is accepted: their negative indices count from
    the end of the table, so two letters are rewired to these characters,
    and [forward] applied twice no longer gives such a letter back. *)
Theorem plugboard_accepts_non_letters (a b : Z) :
  39 <= a <= 64 → 39 <= b <= 64 → a ≠ b →
  ∃ pb, Plugboard.__init__ (Some [([a], [b])]) = Ok pb
        ∧ Plugboard.forward pb (letter (a - 39)) = Ok [b]
        ∧ Plugboard.forward pb [b] = Ok [a]
        ∧ [a] ≠ letter (a - 39).
Proof.
  intros Ha Hb Hab.
  set (w0 := map (λ c : Z, [c]) ALPHABET).
  assert (length w0 = 26%nat) as Hlen by reflexivity.
  assert (upper [a] = [a]) as Hua
    by (unfold upper; simpl; rewrite upper_cp_nonalpha, app_nil_r;
        [done|apply isalpha_cp_39_64, Ha]).
  assert (upper [b] = [b]) as Hub
    by (unfold upper; simpl; rewrite upper_cp_nonalpha, app_nil_r;
        [done|apply isalpha_cp_39_64, Hb]).
  assert (char_to_idx [a] = Ok (a - 65)) as Hia
    by (unfold char_to_idx; rewrite Hua; reflexivity).
  assert (char_to_idx [b] = Ok (b - 65)) as Hib
    by (unfold char_to_idx; rewrite Hub; reflexivity).
  exists (Plugboard.Build
            (<[Z.to_nat (b - 39) := [a]]> (<[Z.to_nat (a - 39) := [b]]> w0))).
  split; [|split; [|split]].
  - unfold Plugboard.__init__. fold w0. simpl Plugboard.connect.
    rewrite Hua, Hub.
    rewrite bool_decide_eq_false_2 by congruence.
    rewrite (bool_decide_eq_false_2 ([a] ∈ ∅)) by apply not_elem_of_empty.
    rewrite (bool_decide_eq_false_2 ([b] ∈ ∅)) by apply not_elem_of_empty.
    simpl orb. cbv iota. rewrite Hia, bind_ret.
    rewrite setitem_negative by (rewrite Hlen; lia). rewrite bind_ret, Hib, bind_ret.
    rewrite setitem_negative by (rewrite length_insert, Hlen; lia).
    rewrite length_insert, Hlen.
    replace (Z.of_nat 26 + (a - 65)) with (a - 39) by lia.
    replace (Z.of_nat 26 + (b - 65)) with (b - 39) by lia.
    reflexivity.
  - unfold Plugboard.forward. simpl.
    rewrite char_to_idx_letter, bind_ret by lia.
    apply getitem_nonneg; [lia|].
    rewrite list_lookup_insert_ne by lia.
    apply list_lookup_insert_eq. rewrite Hlen. lia.
  - unfold Plugboard.forward. simpl. rewrite Hib, bind_ret.
    apply getitem_negative; rewrite !length_insert, Hlen; [lia|].
    replace (Z.of_nat 26 + (b - 65)) with (b - 39) by lia.
    apply list_lookup_insert_eq. rewrite length_insert, Hlen. lia.
  - unfold letter. intros H. injection H. lia.
Qed.

Lemma plugboard_accepts_non_letters_witness :
  ∃ pb, Plugboard.__init__ (Some [(lit "1", lit "2")]) = Ok pb
        ∧ Plugboard.forward pb (lit "K") = Ok (lit "2")
        ∧ Plugboard.forward pb (lit "2") = Ok (lit "1")
        ∧ lit "1" ≠ lit "K".
Proof.
  apply (plugboard_accepts_non_letters 49 50); lia.
Defined.

(** ** The embedding on known outputs *)

(** Enigma I with rotors I, II, III at AAA, rings AAA and reflector B
    enciphers AAAAA to BDZGO. *)
Example encrypt_AAAAA :
  (m ← example_machine; '(_, ct) ← EnigmaMachine.encrypt m (lit "AAAAA"); Ok ct)
  = Ok (lit "BDZGO").
Proof. vm_compute. reflexivity. Qed.

(** The first example of the repository: HELLO WORLD, lower case
    uppercased and the space kept, and back. *)
Example encrypt_hello_world :
  (m ← example_machine;
   '(m1, ct) ← EnigmaMachine.encrypt m (lit "Hello World");
   mr ← EnigmaMachine.reset m1 [lit "A"; lit "A"; lit "A"];
   '(_, pt) ← EnigmaMachine.encrypt mr ct;
   Ok (ct, pt))
  = Ok (lit "ILBDA AMTAZ", lit "HELLO WORLD").
Proof. vm_compute. reflexivity. Qed.

(** The plugboard pair E-X changes the cipher of ENIGMA at its letter E. *)
Example plugboard_effect :
  (m ← example_machine; '(_, ct) ← EnigmaMachine.encrypt m (lit "ENIGMA"); Ok ct)
  = Ok (lit "FQGAHW")
  ∧ (m ← EnigmaMachine.__init__ [lit "I"; lit "II"; lit "III"]
           [lit "A"; lit "A"; lit "A"] [lit "A"; lit "A"; lit "A"]
           (Some [(lit "E", lit "X")]) (lit "B");
     '(_, ct) ← EnigmaMachine.encrypt m (lit "ENIGMA"); Ok ct)
    ≠ Ok (lit "FQGAHW").
Proof.
  split; [vm_compute; reflexivity|].
  intros H. vm_compute in H. discriminate H.
Qed.
